(** * GDG Network Graph (src/index.js): a shallow embedding

    The page script draws contributors as a force-directed graph next to a
    sidebar list.  This development embeds the parts of the script that carry
    logic of their own:

    - the search matcher ([fuzzyMatch], [getMatchScore]) and the search input
      handler;
    - the tooltip positioner ([positionTooltip]);
    - the record normalizer and the relationship builder (year groups and
      links);
    - the click handlers that toggle the [active] class on graph nodes and
      sidebar cards.

    Conventions.  A JavaScript string is the list of its UTF-16 code units.
    JavaScript numbers that hold pixel coordinates are exact rationals ([Q]);
    scores and counters are integers.  The DOM is a record of the elements
    the script reads and writes, with one boolean per CSS class it toggles. *)

From Stdlib Require Import ZArith NArith QArith Lqa Lia String Ascii List.
From stdpp Require Import base list.
Import ListNotations.

(** ** JavaScript strings *)

Abbreviation jsstring := (list N).

(** Code units of an ASCII literal. *)
Fixpoint js (s : string) : jsstring :=
  match s with
  | EmptyString => []
  | String a r => N_of_ascii a :: js r
  end.

(** [String.prototype.toLowerCase] restricted to ASCII letters; it agrees
    with the built-in on every string whose code units are below 128. *)
Definition ascii_lower_unit (c : N) : N :=
  if ((65 <=? c) && (c <=? 90))%N then (c + 32)%N else c.

Definition ascii_toLowerCase (s : jsstring) : jsstring :=
  map ascii_lower_unit s.

(** ECMAScript WhiteSpace and LineTerminator code units: what [trim] strips
    and what the regular expression class [\s] matches. *)
Definition is_space (c : N) : bool :=
  ((9 <=? c) && (c <=? 13) || (c =? 32) || (c =? 160) || (c =? 5760)
   || (8192 <=? c) && (c <=? 8202) || (c =? 8232) || (c =? 8233)
   || (c =? 8239) || (c =? 8287) || (c =? 12288) || (c =? 65279))%N.

Fixpoint trimStart (s : jsstring) : jsstring :=
  match s with
  | [] => []
  | c :: r => if is_space c then trimStart r else s
  end.

Definition trim (s : jsstring) : jsstring :=
  rev (trimStart (rev (trimStart s))).

(** [text.startsWith(query)]: the code units of [query] are those of [text]
    from position 0. *)
Fixpoint startsWith (text query : jsstring) {struct query} : bool :=
  match query, text with
  | [], _ => true
  | q :: query', c :: text' => bool_decide (c = q) && startsWith text' query'
  | _ :: _, [] => false
  end.

(** [text.includes(query)]: [query] occurs at some position of [text], the
    positions tried from the left. *)
Fixpoint includes (text query : jsstring) : bool :=
  startsWith text query
  || match text with
     | [] => false
     | _ :: text' => includes text' query
     end.

(** [query] occurs in [text] as a contiguous block. *)
Definition substring_of (query text : jsstring) : Prop :=
  ∃ pre post, text = pre ++ query ++ post.

(** ** Search matcher *)

(** The [for] loop of [fuzzyMatch].  [rest] is the part of [text] from index
    [i] on; the loop state is [(i, queryIndex)], returned as it stands when
    the loop condition [i < text.length && queryIndex < query.length]
    fails. *)
Fixpoint fuzzy_loop (query rest : jsstring) (i queryIndex : nat) : nat * nat :=
  match rest with
  | [] => (i, queryIndex)
  | c :: rest' =>
      if bool_decide (queryIndex < length query)%nat then
        if bool_decide (query !! queryIndex = Some c)
        then fuzzy_loop query rest' (S i) (S queryIndex)
        else fuzzy_loop query rest' (S i) queryIndex
      else (i, queryIndex)
  end.

Section Matcher.

(** The built-in [String.prototype.toLowerCase]. *)
Variable toLowerCase : jsstring → jsstring.

Definition fuzzyMatch (text query : jsstring) : bool :=
  let text := toLowerCase text in
  let queryIndex := snd (fuzzy_loop query text 0 0) in
  bool_decide (queryIndex = length query).

Definition getMatchScore (text query : jsstring) : Z :=
  let text := toLowerCase text in
  if startsWith text query then 100%Z
  else if includes text query then 50%Z
  else if fuzzyMatch text query then 25%Z
  else 0%Z.

End Matcher.

(** ** Tooltip positioner *)

Open Scope Q_scope.

Record Size := { offsetWidth : Q; offsetHeight : Q }.

Record Window := { innerWidth : Q; innerHeight : Q }.

(** The object literal [{ left, top }] that [positionTooltip] returns. *)
Record Placement := { pos_left : Q; pos_top : Q }.

Definition Qlt_bool (a b : Q) : bool := negb (Qle_bool b a).

Definition Math_max (a b : Q) : Q := if Qle_bool a b then b else a.

Definition Math_min (a b : Q) : Q := if Qle_bool a b then a else b.

Definition padding : Q := 12.

Definition gap : Q := 16.

(** The size [positionTooltip] works with: that of the tooltip element, or
    the fixed estimate when [tooltip.node()] is null. *)
Definition tooltipWidth (tooltipNode : option Size) (isDetailed : bool) : Q :=
  match tooltipNode with
  | Some el => offsetWidth el
  | None => if isDetailed then 280 else 180
  end.

Definition tooltipHeight (tooltipNode : option Size) (isDetailed : bool) : Q :=
  match tooltipNode with
  | Some el => offsetHeight el
  | None => if isDetailed then 200 else 60
  end.

(** [positionTooltip(x, y, isDetailed, nodeRadius)].  The two globals it
    reads, [tooltip.node()] and [window], are its first two arguments. *)
Definition positionTooltip (tooltipNode : option Size) (window : Window)
    (x y : Q) (isDetailed : bool) (nodeRadius : Q) : Placement :=
  let tooltipWidth := tooltipWidth tooltipNode isDetailed in
  let tooltipHeight := tooltipHeight tooltipNode isDetailed in
  let left := x - tooltipWidth / 2 in
  let top := y - nodeRadius - tooltipHeight - gap in
  let left :=
    Math_max padding (Math_min left (innerWidth window - tooltipWidth - padding)) in
  let top := if Qlt_bool top padding then y + nodeRadius + gap else top in
  if Qlt_bool (innerHeight window - padding) (top + tooltipHeight) then
    let top := Math_max padding (y - tooltipHeight / 2) in
    let left := x + nodeRadius + gap in
    let left :=
      if Qlt_bool (innerWidth window - padding) (left + tooltipWidth)
      then x - nodeRadius - tooltipWidth - gap
      else left in
    {| pos_left := left; pos_top := top |}
  else {| pos_left := left; pos_top := top |}.

(** The horizontal clamp of the placements above and below the anchor. *)
Definition clamp_left (window : Window) (x width : Q) : Q :=
  Math_max padding
    (Math_min (x - width / 2) (innerWidth window - width - padding)).

(** The default of the parameter [nodeRadius], which every call site leaves
    out. *)
Definition default_nodeRadius : Q := 8.

(** The rectangle of a [width] by [height] tooltip placed at [p] lies in the
    window inset by [padding] on every edge. *)
Definition within_padding (window : Window) (width height : Q) (p : Placement) : Prop :=
  (padding <= pos_left p ∧ pos_left p + width <= innerWidth window - padding ∧
   padding <= pos_top p ∧ pos_top p + height <= innerHeight window - padding)%Q.

Close Scope Q_scope.

(** ** Records and nodes *)

(** A record of data.json.  A field that is absent, null or the empty string
    is falsy for the script.  The optional fields are strings: the search
    handler calls [toLowerCase] on the graduation year. *)
Record PersonRecord := {
  person_name : jsstring;
  person_website : option jsstring;
  person_linkedIn : option jsstring;
  person_gitHub : option jsstring;
  person_graduationYear : option jsstring;
  person_professionalEmail : option jsstring
}.

(** A node object.  Its coordinates, drawn at random and then owned by the
    force simulation, are left out. *)
Record Node := {
  node_id : jsstring;
  node_name : jsstring;
  node_website : option jsstring;
  node_linkedIn : option jsstring;
  node_gitHub : option jsstring;
  node_graduationYear : option jsstring;
  node_professionalEmail : option jsstring;
  node_index : nat
}.

(** [v || null] on an optional string. *)
Definition or_null (v : option jsstring) : option jsstring :=
  match v with
  | Some (c :: s) => Some (c :: s)
  | _ => None
  end.

(** [s.replace(/\s+/g, '-')]: every maximal run of white space becomes one
    hyphen.  [in_run] tells that the code unit before was white space. *)
Fixpoint replace_space_runs (in_run : bool) (s : jsstring) : jsstring :=
  match s with
  | [] => []
  | c :: r =>
      if is_space c then
        if in_run then replace_space_runs true r
        else 45%N :: replace_space_runs true r
      else c :: replace_space_runs false r
  end.

Section Normalizer.

Variable toLowerCase : jsstring → jsstring.

(** The callback of [data.map] in the load handler. *)
Definition make_node (index : nat) (person : PersonRecord) : Node :=
  {| node_id := replace_space_runs false (toLowerCase (person_name person));
     node_name := person_name person;
     node_website := or_null (person_website person);
     node_linkedIn := or_null (person_linkedIn person);
     node_gitHub := or_null (person_gitHub person);
     node_graduationYear := or_null (person_graduationYear person);
     node_professionalEmail := or_null (person_professionalEmail person);
     node_index := index |}.

Definition make_nodes (data : list PersonRecord) : list Node :=
  imap make_node data.

End Normalizer.

(** ** Relationship builder *)

Record Link := { source : jsstring; target : jsstring }.

(** [node.graduationYear || 'unknown']. *)
Definition cohort_key (node : Node) : jsstring :=
  match node_graduationYear node with
  | Some (c :: s) => c :: s
  | _ => js "unknown"
  end.

(** The [Map] [yearGroups]: its entries in insertion order. *)
Abbreviation YearGroups := (list (jsstring * list Node)).

Fixpoint map_has (key : jsstring) (m : YearGroups) : bool :=
  match m with
  | [] => false
  | (k, _) :: m' => bool_decide (k = key) || map_has key m'
  end.

(** [m.set(key, value)]: a new key goes last, a known key keeps its place. *)
Fixpoint map_set (key : jsstring) (value : list Node) (m : YearGroups) : YearGroups :=
  match m with
  | [] => [(key, value)]
  | (k, v) :: m' =>
      if bool_decide (k = key) then (k, value) :: m'
      else (k, v) :: map_set key value m'
  end.

(** [m.get(key).push(node)]: the array stored under [key] grows in place.
    Under a key that is absent the script would fail; [yearGroups_step]
    only calls it on a key that is present. *)
Fixpoint map_push (key : jsstring) (node : Node) (m : YearGroups) : YearGroups :=
  match m with
  | [] => []
  | (k, v) :: m' =>
      if bool_decide (k = key) then (k, v ++ [node]) :: m'
      else (k, v) :: map_push key node m'
  end.

(** The body of [nodes.forEach] that fills [yearGroups]. *)
Definition yearGroups_step (yearGroups : YearGroups) (node : Node) : YearGroups :=
  let year := cohort_key node in
  let yearGroups :=
    if negb (map_has year yearGroups) then map_set year [] yearGroups
    else yearGroups in
  map_push year node yearGroups.

Definition build_yearGroups (nodes : list Node) : YearGroups :=
  fold_left yearGroups_step nodes [].

Definition make_link (a b : Node) : Link :=
  {| source := node_id a; target := node_id b |}.

(** The body of the ring loop at index [i].  Reading past the end of
    [groupNodes] would fail in the script; [i] and [nextIndex] stay below
    the length (lemma [ring_rounds]). *)
Definition ring_step (groupNodes : list Node) (links : list Link) (i : nat) : list Link :=
  let nextIndex := ((i + 1) mod length groupNodes)%nat in
  match groupNodes !! i, groupNodes !! nextIndex with
  | Some a, Some b => links ++ [make_link a b]
  | _, _ => links
  end.

(** The callback of [yearGroups.forEach]: what one group pushes to [links]. *)
Definition group_links (links : list Link) (groupNodes : list Node) : list Link :=
  if (length groupNodes =? 1)%nat then links
  else if (length groupNodes =? 2)%nat then
    match groupNodes !! 0%nat, groupNodes !! 1%nat with
    | Some a, Some b => links ++ [make_link a b]
    | _, _ => links
    end
  else fold_left (ring_step groupNodes) (seq 0 (length groupNodes)) links.

Definition build_links (nodes : list Node) : list Link :=
  fold_left group_links (build_yearGroups nodes).*2 [].

(** The links one group contributes. *)
Definition group_edges (groupNodes : list Node) : list Link :=
  group_links [] groupNodes.

(** ** The page: graph nodes, sidebar cards, tooltip *)

(** A [g.node] element with its bound datum and the classes the script
    toggles on it. *)
Record NodeElement := {
  ne_datum : Node;
  ne_active : bool;
  ne_search_match : bool;
  ne_search_dim : bool
}.

(** A [div.person-card]: its [data-id] attribute, its bound datum, the text
    of its [.person-name] child, the text of its [.year] child when it has
    one, and its classes. *)
Record CardElement := {
  card_data_id : jsstring;
  card_datum : Node;
  card_name : jsstring;
  card_year : option jsstring;
  card_active : bool;
  card_search_match : bool;
  card_search_dim : bool
}.

(** The classes of the tooltip element; its content and position are not
    tracked. *)
Record Tooltip := { tt_visible : bool; tt_detailed : bool }.

(** The callbacks handed to [requestAnimationFrame]. *)
Inductive FrameCallback := ShowHover | ShowDetailed.

Record Page := {
  nodeElements : list NodeElement;
  cardElements : list CardElement;
  tooltip : Tooltip;
  frames : list FrameCallback
}.

Definition node_set_active (b : bool) (el : NodeElement) : NodeElement :=
  {| ne_datum := ne_datum el; ne_active := b;
     ne_search_match := ne_search_match el; ne_search_dim := ne_search_dim el |}.

Definition node_set_search (is_match dim : bool) (el : NodeElement) : NodeElement :=
  {| ne_datum := ne_datum el; ne_active := ne_active el;
     ne_search_match := is_match; ne_search_dim := dim |}.

Definition card_set_active (b : bool) (el : CardElement) : CardElement :=
  {| card_data_id := card_data_id el; card_datum := card_datum el;
     card_name := card_name el; card_year := card_year el;
     card_active := b;
     card_search_match := card_search_match el;
     card_search_dim := card_search_dim el |}.

Definition card_set_search (is_match dim : bool) (el : CardElement) : CardElement :=
  {| card_data_id := card_data_id el; card_datum := card_datum el;
     card_name := card_name el; card_year := card_year el;
     card_active := card_active el;
     card_search_match := is_match; card_search_dim := dim |}.

(** The elements the load handler creates, one node and one card per datum.
    A card shows the name and, for a truthy year, the label
    [Class of <year>].  The script writes the card with [.html()] and the
    search reads it back with [.text()]: [card_name] and [card_year] are the
    texts read back.  They are the strings written for a name and a year
    without [<] and [&]; markup or a character reference in a name would
    make the text of the card differ from the name, and such names are not
    covered by [make_card]. *)
Definition make_nodeElement (d : Node) : NodeElement :=
  {| ne_datum := d; ne_active := false;
     ne_search_match := false; ne_search_dim := false |}.

Definition make_card (d : Node) : CardElement :=
  {| card_data_id := node_id d;
     card_datum := d;
     card_name := node_name d;
     card_year :=
       match node_graduationYear d with
       | Some (c :: s) => Some (js "Class of " ++ c :: s)
       | _ => None
       end;
     card_active := false;
     card_search_match := false; card_search_dim := false |}.

Definition initial_page (nodes : list Node) : Page :=
  {| nodeElements := make_nodeElement <$> nodes;
     cardElements := make_card <$> nodes;
     tooltip := {| tt_visible := false; tt_detailed := false |};
     frames := [] |}.

(** *** Click handlers *)

(** [showDetailedTooltip]: fills the tooltip and asks for a frame in which
    it is placed, shown and marked detailed. *)
Definition showDetailedTooltip (p : Page) : Page :=
  {| nodeElements := nodeElements p; cardElements := cardElements p;
     tooltip := tooltip p; frames := frames p ++ [ShowDetailed] |}.

(** The circle handler splices the identifier as it is into the selector
    [.person-card[data-id="<id>"]].  A code unit stands for itself between
    the double quotes of the selector unless it is the quote (34), the
    backslash (92), a line break (10, 12, 13), the null (0) or half of a
    surrogate pair. *)
Definition plain_unit (c : N) : bool :=
  negb ((c =? 0) || (c =? 10) || (c =? 12) || (c =? 13) || (c =? 34)
        || (c =? 92) || ((55296 <=? c) && (c <=? 57343)))%N.

(** The identifiers for which the selector is well formed and asks for the
    attribute value [id] itself. *)
Definition selector_plain (id : jsstring) : Prop :=
  Forall (λ c, plain_unit c = true) id.

(** [d3.select(selector)] for the selector [.person-card[data-id="<id>"]]
    and an identifier that is [selector_plain]: the first card in document
    order whose attribute is [id].  For another identifier the selector is
    not this one: with a double quote in the identifier it is not a
    selector at all, [d3.select] throws and the handler stops after it has
    set the node active and cleared the cards, with no card set active and
    no tooltip asked for.  [select_card], and [circle_click] after it, say
    what the script does for plain identifiers; what is stated below about
    the card a click on a circle selects, or about the tooltip it shows, is
    stated for these. *)
Fixpoint select_card (id : jsstring) (cards : list CardElement) : option nat :=
  match cards with
  | [] => None
  | c :: cards' =>
      if bool_decide (card_data_id c = id) then Some 0%nat
      else S <$> select_card id cards'
  end.

(** Click handler of the card at position [i] of the sidebar. *)
Definition card_click (i : nat) (p : Page) : Page :=
  let cards := card_set_active false <$> cardElements p in
  let cards := alter (card_set_active true) i cards in
  showDetailedTooltip
    {| nodeElements := nodeElements p; cardElements := cards;
       tooltip := tooltip p; frames := frames p |}.

(** Click handler of the circle of the node at position [i]. *)
Definition circle_click (i : nat) (p : Page) : Page :=
  match nodeElements p !! i with
  | None => p
  | Some el =>
      let d := ne_datum el in
      let nodes := node_set_active false <$> nodeElements p in
      let nodes := alter (node_set_active true) i nodes in
      let cards := card_set_active false <$> cardElements p in
      let cards :=
        match select_card (node_id d) cards with
        | Some j => alter (card_set_active true) j cards
        | None => cards
        end in
      showDetailedTooltip
        {| nodeElements := nodes; cardElements := cards;
           tooltip := tooltip p; frames := frames p |}
  end.

(** Where a click landed, as the document listener tests it with
    [closest]. *)
Inductive Target := InNode | InCard | Elsewhere.

(** The click listener of the document. *)
Definition document_click (t : Target) (p : Page) : Page :=
  match t with
  | Elsewhere =>
      if tt_detailed (tooltip p) then
        {| nodeElements := node_set_active false <$> nodeElements p;
           cardElements := card_set_active false <$> cardElements p;
           tooltip := {| tt_visible := false; tt_detailed := false |};
           frames := frames p |}
      else p
  | _ => p
  end.

Definition mouseover (p : Page) : Page :=
  if tt_detailed (tooltip p) then p
  else {| nodeElements := nodeElements p; cardElements := cardElements p;
          tooltip := tooltip p; frames := frames p ++ [ShowHover] |}.

Definition mouseout (p : Page) : Page :=
  if tt_detailed (tooltip p) then p
  else {| nodeElements := nodeElements p; cardElements := cardElements p;
          tooltip := {| tt_visible := false;
                        tt_detailed := tt_detailed (tooltip p) |};
          frames := frames p |}.

Definition run_callback (t : Tooltip) (cb : FrameCallback) : Tooltip :=
  match cb with
  | ShowHover => {| tt_visible := true; tt_detailed := tt_detailed t |}
  | ShowDetailed => {| tt_visible := true; tt_detailed := true |}
  end.

(** An animation frame: the pending callbacks run in the order they were
    requested. *)
Definition animation_frame (p : Page) : Page :=
  {| nodeElements := nodeElements p; cardElements := cardElements p;
     tooltip := fold_left run_callback (frames p) (tooltip p);
     frames := [] |}.

(** What the user and the browser do to the page. *)
Inductive Event :=
| ClickCircle (i : nat)
| ClickLabel (i : nat)
| ClickCard (i : nat)
| ClickElsewhere
| MouseOver (i : nat)
| MouseOut (i : nat)
| AnimationFrame.

(** Event dispatch.  The circle handler stops propagation, so the document
    listener does not see a click on a circle; a click on a card reaches the
    card handler and then the document; a node label has no handler of its
    own. *)
Definition dispatch (p : Page) (e : Event) : Page :=
  match e with
  | ClickCircle i => circle_click i p
  | ClickLabel _ => document_click InNode p
  | ClickCard i => document_click InCard (card_click i p)
  | ClickElsewhere => document_click Elsewhere p
  | MouseOver _ => mouseover p
  | MouseOut _ => mouseout p
  | AnimationFrame => animation_frame p
  end.

Definition run (p : Page) (events : list Event) : Page :=
  fold_left dispatch events p.

Definition active_nodes (p : Page) : list NodeElement :=
  filter (λ el, ne_active el = true) (nodeElements p).

Definition active_cards (p : Page) : list CardElement :=
  filter (λ el, card_active el = true) (cardElements p).

(** *** Search input handler *)

Section Search.

Variable toLowerCase : jsstring → jsstring.

(** The score the callback of [nodeElements.each] gives the datum of a
    node: the better of the score of the name and the score of the
    graduation year, a year that is missing counting 0. *)
Definition node_score (query : jsstring) (d : Node) : Z :=
  let nameScore := getMatchScore toLowerCase (node_name d) query in
  let yearScore :=
    match node_graduationYear d with
    | Some (c :: s) => getMatchScore toLowerCase (c :: s) query
    | _ => 0%Z
    end in
  Z.max nameScore yearScore.

(** The callback of [nodeElements.each].  The graduation year is a string
    here, as [getMatchScore] needs it: a truthy year that is not a string
    (a number in the data file) has no [toLowerCase], the call throws and
    the handler stops in this loop, before the cards are looked at.  Data
    with such years is not covered by [search_node]. *)
Definition search_node (query : jsstring) (el : NodeElement) : NodeElement :=
  let d := ne_datum el in
  let nameScore := getMatchScore toLowerCase (node_name d) query in
  let yearScore :=
    match node_graduationYear d with
    | Some (c :: s) => getMatchScore toLowerCase (c :: s) query
    | _ => 0%Z
    end in
  let score := Z.max nameScore yearScore in
  let isMatch := (0 <? score)%Z in
  node_set_search isMatch (negb isMatch) el.

(** The score the callback of [cardElements.each] gives a card. *)
Definition card_score (query : jsstring) (card : CardElement) : Z :=
  let name := card_name card in
  let year := match card_year card with Some t => t | None => [] end in
  let nameScore := getMatchScore toLowerCase name query in
  let yearScore := getMatchScore toLowerCase year query in
  Z.max nameScore yearScore.

(** State of the card loop: the cards done so far, and the two variables
    [firstMatch] (the position of a card) and [bestScore]. *)
Record CardLoop := {
  cl_done : list CardElement;
  firstMatch : option nat;
  bestScore : Z
}.

(** The state in which the card loop starts: [firstMatch = null] and
    [bestScore = 0]. *)
Definition card_loop_start : CardLoop :=
  {| cl_done := []; firstMatch := None; bestScore := 0 |}.

Definition search_card (query : jsstring) (st : CardLoop) (card : CardElement) : CardLoop :=
  let score := card_score query card in
  let isMatch := (0 <? score)%Z in
  let card' := card_set_search isMatch (negb isMatch) card in
  if isMatch && (bestScore st <? score)%Z then
    {| cl_done := cl_done st ++ [card'];
       firstMatch := Some (length (cl_done st));
       bestScore := score |}
  else
    {| cl_done := cl_done st ++ [card'];
       firstMatch := firstMatch st;
       bestScore := bestScore st |}.

(** The handler after [query] is computed: the page it leaves and the card
    it scrolls into view, if any. *)
Definition search_query (query : jsstring) (p : Page) : Page * option nat :=
  match query with
  | [] =>
      ({| nodeElements := node_set_search false false <$> nodeElements p;
          cardElements := card_set_search false false <$> cardElements p;
          tooltip := tooltip p; frames := frames p |}, None)
  | _ :: _ =>
      let nodes := search_node query <$> nodeElements p in
      let st :=
        fold_left (search_card query) (cardElements p)
          {| cl_done := []; firstMatch := None; bestScore := 0 |} in
      ({| nodeElements := nodes; cardElements := cl_done st;
          tooltip := tooltip p; frames := frames p |}, firstMatch st)
  end.

(** The [input] listener of the search box, [value] being the text in
    the box. *)
Definition search_input (value : jsstring) (p : Page) : Page * option nat :=
  let query := trim (toLowerCase value) in
  search_query query p.

(** The score of a card with a missing year element counted 0: the better
    of the score of the text of its name element and the score of the text
    of its year element, which on the page as loaded reads
    [Class of <year>]. *)
Definition effective_score (query : jsstring) (card : CardElement) : Z :=
  Z.max (getMatchScore toLowerCase (card_name card) query)
        (match card_year card with
         | Some label => getMatchScore toLowerCase label query
         | None => 0%Z
         end).

(** What the card loop does to the classes of one card. *)
Definition classify_card (query : jsstring) (card : CardElement) : CardElement :=
  let isMatch := (0 <? card_score query card)%Z in
  card_set_search isMatch (negb isMatch) card.

End Search.

(** ** Statements about year groups *)

(** [m] groups [nodes] by cohort key: the keys are distinct, every group is
    the non-empty list of the nodes with its key, in the order of [nodes],
    and every node has its key in [m]. *)
Definition groups_by_cohort (nodes : list Node) (m : YearGroups) : Prop :=
  NoDup m.*1 ∧
  (∀ k g, (k, g) ∈ m → g ≠ [] ∧ g = filter (λ n, cohort_key n = k) nodes) ∧
  (∀ n, n ∈ nodes → cohort_key n ∈ m.*1).

(** ** Sample data *)

Definition person (name : string) (year : option string) : PersonRecord :=
  {| person_name := js name;
     person_website := None;
     person_linkedIn := None;
     person_gitHub := None;
     person_graduationYear := js <$> year;
     person_professionalEmail := None |}.

Definition sample_nodes : list Node :=
  make_nodes ascii_toLowerCase
    [person "Alice" (Some "2020"%string);
     person "Bob" (Some "2020"%string);
     person "Cara" (Some "2020"%string)].

(** Two contributors of two cohorts. *)
Definition two_cohorts : list Node :=
  make_nodes ascii_toLowerCase
    [person "Bob" (Some "2020"%string);
     person "Cleo" (Some "2021"%string)].

(** A page on which an earlier search left its marks. *)
Definition searched_page : Page :=
  (search_input ascii_toLowerCase (js "ali") (initial_page sample_nodes)).1.


(** ** Statements about the order of the year groups *)

(** The keys of [l] in the order in which they first occur. *)
Fixpoint first_occurrences (l : list jsstring) : list jsstring :=
  match l with
  | [] => []
  | k :: l' => k :: filter (λ k', k' ≠ k) (first_occurrences l')
  end.

(** What one group of [N] nodes adds to the number of links. *)
Definition links_of_size (N : nat) : nat :=
  match N with
  | 0 | 1 => 0
  | 2 => 1
  | _ => N
  end.


(** ** Statements about the page *)

(** No two nodes and no two cards carry the [active] class. *)
Definition at_most_one_active (p : Page) : Prop :=
  length (active_nodes p) ≤ 1 ∧ length (active_cards p) ≤ 1.

(** The elements of [p] are those made for [nodes]: the data of its node
    elements and the [data-id] attributes of its cards, in order. *)
Definition page_of (nodes : list Node) (p : Page) : Prop :=
  ne_datum <$> nodeElements p = nodes ∧
  card_data_id <$> cardElements p = node_id <$> nodes.

(** The events that are clicks on a card, or on the circle of a node whose
    identifier is [selector_plain]. *)
Definition activates (p : Page) (e : Event) : Prop :=
  match e with
  | ClickCircle i =>
      ∃ el, nodeElements p !! i = Some el ∧
            selector_plain (node_id (ne_datum el))
  | ClickCard i => True
  | _ => False
  end.


(** ** The search box and its Escape key *)

(** The search box: its text and whether it has the focus. *)
Record SearchBox := { box_value : jsstring; box_focused : bool }.

(** The [keydown] listener of the search box.  On the key Escape it empties
    the box, dispatches an [input] event, which runs the input listener at
    once on the empty text, and takes the focus off the box.  On any other
    key it does nothing. *)
Definition search_keydown (toLowerCase : jsstring → jsstring)
    (key : jsstring) (box : SearchBox) (p : Page)
    : SearchBox * (Page * option nat) :=
  if bool_decide (key = js "Escape") then
    ({| box_value := []; box_focused := false |},
     search_input toLowerCase [] p)
  else (box, (p, None)).

(** The page with the marks of the search taken off every node and card. *)
Definition search_cleared (p : Page) : Page :=
  {| nodeElements := node_set_search false false <$> nodeElements p;
     cardElements := card_set_search false false <$> cardElements p;
     tooltip := tooltip p; frames := frames p |}.


(** ** Drag handlers *)

Open Scope Q_scope.

(** The position fields of a node object: where the simulation has put it,
    and where it is pinned, if it is ([fx] and [fy], null when free). *)
Record Position := { pos_x : Q; pos_y : Q; pos_fx : option Q; pos_fy : option Q }.

(** The simulation as the drag handlers see it: its alpha target, and how
    often it was restarted. *)
Record Simulation := { alphaTarget : Q; restarts : nat }.

(** The fields of [d3.event] the drag handlers read: the number of other
    gestures in progress, and the pointer. *)
Record DragEvent := { ev_active : nat; ev_x : Q; ev_y : Q }.

Definition dragstarted (ev : DragEvent) (st : Simulation * Position)
    : Simulation * Position :=
  let (simulation, d) := st in
  let simulation :=
    if (ev_active ev =? 0)%nat
    then {| alphaTarget := 3 / 10; restarts := S (restarts simulation) |}
    else simulation in
  (simulation,
   {| pos_x := pos_x d; pos_y := pos_y d;
      pos_fx := Some (pos_x d); pos_fy := Some (pos_y d) |}).

Definition dragged (ev : DragEvent) (st : Simulation * Position)
    : Simulation * Position :=
  let (simulation, d) := st in
  (simulation,
   {| pos_x := pos_x d; pos_y := pos_y d;
      pos_fx := Some (ev_x ev); pos_fy := Some (ev_y ev) |}).

Definition dragended (ev : DragEvent) (st : Simulation * Position)
    : Simulation * Position :=
  let (simulation, d) := st in
  let simulation :=
    if (ev_active ev =? 0)%nat
    then {| alphaTarget := 0; restarts := restarts simulation |}
    else simulation in
  (simulation,
   {| pos_x := pos_x d; pos_y := pos_y d;
      pos_fx := None; pos_fy := None |}).

(** What happens between the start and the end of a gesture: the pointer
    moves, or the simulation writes a new place into [x] and [y]. *)
Inductive DragStep :=
| Dragged (ev : DragEvent)
| Ticked (x y : Q).

Definition drag_step (st : Simulation * Position) (s : DragStep)
    : Simulation * Position :=
  match s with
  | Dragged ev => dragged ev st
  | Ticked x y =>
      (st.1, {| pos_x := x; pos_y := y;
                pos_fx := pos_fx st.2; pos_fy := pos_fy st.2 |})
  end.

(** The pointer events among the steps of a gesture. *)
Definition pointer_moves (steps : list DragStep) : list DragEvent :=
  omap (λ s, match s with Dragged ev => Some ev | Ticked _ _ => None end) steps.

Close Scope Q_scope.

(** * Properties *)

(** ** Properties of the string primitives *)

Lemma startsWith_prefix (text query : jsstring) :
  startsWith text query = true ↔ query `prefix_of` text.
Proof.
  revert text. induction query as [|q query IH]; intros text; simpl.
  - split; [intros _; apply prefix_nil | done].
  - destruct text as [|c text].
    + split; [done | intros H; by apply prefix_nil_not in H].
    + rewrite andb_true_iff, bool_decide_eq_true, IH. split.
      * intros [-> H]. by apply prefix_cons.
      * intros H. split; [symmetry; by eapply prefix_cons_inv_1
                         | by eapply prefix_cons_inv_2].
Qed.

Lemma includes_substring (text query : jsstring) :
  includes text query = true ↔ substring_of query text.
Proof.
  induction text as [|c text IH].
  - cbn [includes]. rewrite orb_false_r, startsWith_prefix. split.
    + intros [k Hk]. by exists [], k.
    + intros (pre & post & H). symmetry in H.
      apply app_eq_nil in H as [-> H]. apply app_eq_nil in H as [-> ->].
      done.
  - cbn [includes]. rewrite orb_true_iff, startsWith_prefix, IH. split.
    + intros [[k Hk] | (pre & post & H)].
      * by exists [], k.
      * exists (c :: pre), post. by rewrite H.
    + intros (pre & post & H). destruct pre as [|p pre].
      * left. by exists post.
      * right. simplify_eq/=. by exists pre, post.
Qed.

Lemma prefix_substring (query text : jsstring) :
  query `prefix_of` text → substring_of query text.
Proof. intros [k ->]. by exists [], k. Qed.

Lemma substring_sublist (query text : jsstring) :
  substring_of query text → query `sublist_of` text.
Proof.
  intros (pre & post & ->).
  apply sublist_inserts_l, sublist_inserts_r. done.
Qed.

(** ** The scan of [fuzzyMatch] *)

(** From loop state [queryIndex], the loop ends with the whole query consumed
    exactly when what is left of the query is a subsequence of what is left
    of the text. *)
Lemma fuzzy_loop_sublist (query rest : jsstring) (i k : nat) :
  (k ≤ length query)%nat →
  snd (fuzzy_loop query rest i k) = length query ↔ drop k query `sublist_of` rest.
Proof.
  revert i k. induction rest as [|c rest IH]; intros i k Hk; simpl.
  - rewrite sublist_nil_r. split.
    + intros ->. apply drop_all.
    + intros H. apply (f_equal length) in H.
      rewrite length_drop in H. simpl in H. lia.
  - case_bool_decide as Hlt.
    + destruct (lookup_lt_is_Some_2 query k Hlt) as [q Hq].
      rewrite (drop_S _ _ _ Hq). case_bool_decide as Heq.
      * assert (q = c) as -> by congruence.
        rewrite IH by lia. rewrite sublist_cons_r. split.
        -- intros H. right. eauto.
        -- intros [H | (l' & [= <-] & H)]; [|done].
           etrans; [apply sublist_cons; reflexivity | exact H].
      * rewrite IH by lia. rewrite (drop_S _ _ _ Hq), sublist_cons_r.
        split; [by left|]. intros [H | (l' & [= E _] & _)]; [done|].
        congruence.
    + simpl. assert (k = length query) as -> by lia.
      rewrite drop_all. split; [intros _; apply sublist_nil_l | done].
Qed.

(** The loop variable [i] never passes the end of the text: one visit per
    code unit at most. *)
Lemma fuzzy_loop_bound (query rest : jsstring) (i k : nat) :
  (i ≤ fst (fuzzy_loop query rest i k) ≤ i + length rest)%nat.
Proof.
  revert i k. induction rest as [|c rest IH]; intros i k; simpl; [lia|].
  repeat case_bool_decide; simpl;
    try (specialize (IH (S i) (S k)); lia);
    try (specialize (IH (S i) k); lia); lia.
Qed.

(** The query index only grows, and by at most one per code unit read. *)
Lemma fuzzy_loop_index (query rest : jsstring) (i k : nat) :
  (k ≤ length query →
   k ≤ snd (fuzzy_loop query rest i k) ≤ length query)%nat.
Proof.
  revert i k. induction rest as [|c rest IH]; intros i k Hk; simpl; [lia|].
  repeat case_bool_decide; simpl;
    try (specialize (IH (S i) (S k)); lia);
    try (specialize (IH (S i) k); lia); lia.
Qed.

Lemma fuzzyMatch_sublist toLowerCase (text query : jsstring) :
  fuzzyMatch toLowerCase text query = true ↔
  query `sublist_of` toLowerCase text.
Proof.
  unfold fuzzyMatch. rewrite bool_decide_eq_true.
  rewrite fuzzy_loop_sublist by lia. done.
Qed.

Lemma ascii_lower_unit_idem (c : N) :
  ascii_lower_unit (ascii_lower_unit c) = ascii_lower_unit c.
Proof.
  unfold ascii_lower_unit.
  destruct (65 <=? c)%N eqn:H1, (c <=? 90)%N eqn:H2; simpl; rewrite ?H1, ?H2; simpl; try done.
  apply N.leb_le in H1, H2.
  destruct (65 <=? c + 32)%N eqn:H3, (c + 32 <=? 90)%N eqn:H4; simpl; try done.
  apply N.leb_le in H4. lia.
Qed.

Lemma ascii_toLowerCase_idem (s : jsstring) :
  ascii_toLowerCase (ascii_toLowerCase s) = ascii_toLowerCase s.
Proof.
  unfold ascii_toLowerCase. rewrite map_map.
  apply map_ext. intros c. apply ascii_lower_unit_idem.
Qed.

(** ** The score tiers *)

Section MatcherFacts.

Variable toLowerCase : jsstring → jsstring.

Lemma getMatchScore_prefix (text query : jsstring) :
  query `prefix_of` toLowerCase text →
  getMatchScore toLowerCase text query = 100%Z.
Proof.
  intros H. apply startsWith_prefix in H.
  unfold getMatchScore. by rewrite H.
Qed.

Lemma getMatchScore_substring (text query : jsstring) :
  ¬ query `prefix_of` toLowerCase text →
  substring_of query (toLowerCase text) →
  getMatchScore toLowerCase text query = 50%Z.
Proof.
  intros Hp Hs. unfold getMatchScore.
  destruct (startsWith _ _) eqn:E1.
  - by apply startsWith_prefix in E1.
  - apply includes_substring in Hs. by rewrite Hs.
Qed.

Lemma getMatchScore_rest (text query : jsstring) :
  ¬ substring_of query (toLowerCase text) →
  getMatchScore toLowerCase text query =
    if fuzzyMatch toLowerCase (toLowerCase text) query then 25%Z else 0%Z.
Proof.
  intros Hs. unfold getMatchScore.
  destruct (startsWith _ _) eqn:E1.
  { apply startsWith_prefix, prefix_substring in E1. done. }
  destruct (includes _ _) eqn:E2.
  { by apply includes_substring in E2. }
  done.
Qed.

Lemma getMatchScore_values (text query : jsstring) :
  let score := getMatchScore toLowerCase text query in
  score = 0%Z ∨ score = 25%Z ∨ score = 50%Z ∨ score = 100%Z.
Proof.
  unfold getMatchScore. repeat case_match; auto.
Qed.

Hypothesis toLowerCase_idem :
  ∀ s, toLowerCase (toLowerCase s) = toLowerCase s.

(** The inner call of [fuzzyMatch] sees a text that is lower-cased
    already. *)
Lemma fuzzyMatch_lowered (text query : jsstring) :
  fuzzyMatch toLowerCase (toLowerCase text) query =
  fuzzyMatch toLowerCase text query.
Proof. unfold fuzzyMatch. by rewrite toLowerCase_idem. Qed.

Lemma getMatchScore_positive (text query : jsstring) :
  (0 < getMatchScore toLowerCase text query)%Z ↔
  fuzzyMatch toLowerCase text query = true.
Proof.
  unfold getMatchScore.
  destruct (startsWith _ _) eqn:E1.
  { apply startsWith_prefix, prefix_substring, substring_sublist in E1.
    apply fuzzyMatch_sublist in E1. rewrite E1. split; [done | lia]. }
  destruct (includes _ _) eqn:E2.
  { apply includes_substring, substring_sublist in E2.
    apply fuzzyMatch_sublist in E2. rewrite E2. split; [done | lia]. }
  rewrite fuzzyMatch_lowered.
  destruct (fuzzyMatch _ _ _); split; (done || lia).
Qed.

End MatcherFacts.

(** ** Claims on the search matcher *)

(** C3.  The score of [text] against [query] is 100 when the lower-cased
    text starts with the query, else 50 when it contains the query as a
    contiguous block, else 25 when [fuzzyMatch] holds, else 0; and the three
    sample scores of Joshua Choong are 25, 100 and 50. *)
Theorem getMatchScore_tiers (toLowerCase : jsstring → jsstring)
    (toLowerCase_idem : ∀ s, toLowerCase (toLowerCase s) = toLowerCase s)
    (text query : jsstring) :
  let lowered := toLowerCase text in
  let score := getMatchScore toLowerCase text query in
  (query `prefix_of` lowered → score = 100%Z) ∧
  (¬ query `prefix_of` lowered → substring_of query lowered → score = 50%Z) ∧
  (¬ query `prefix_of` lowered → ¬ substring_of query lowered →
   fuzzyMatch toLowerCase text query = true → score = 25%Z) ∧
  (¬ query `prefix_of` lowered → ¬ substring_of query lowered →
   fuzzyMatch toLowerCase text query = false → score = 0%Z) ∧
  getMatchScore ascii_toLowerCase (js "Joshua Choong") (js "jc") = 25%Z ∧
  getMatchScore ascii_toLowerCase (js "Joshua") (js "jos") = 100%Z ∧
  getMatchScore ascii_toLowerCase (js "Joshua") (js "shu") = 50%Z.
Proof.
  intros lowered score. subst lowered score. repeat split.
  - apply getMatchScore_prefix.
  - apply getMatchScore_substring.
  - intros _ Hs Hf. rewrite getMatchScore_rest by done.
    by rewrite fuzzyMatch_lowered, Hf.
  - intros _ Hs Hf. rewrite getMatchScore_rest by done.
    by rewrite fuzzyMatch_lowered, Hf.
Qed.

Lemma getMatchScore_tiers_witness :
  (∀ s, ascii_toLowerCase (ascii_toLowerCase s) = ascii_toLowerCase s) ∧
  ¬ js "shu" `prefix_of` ascii_toLowerCase (js "Joshua") ∧
  substring_of (js "shu") (ascii_toLowerCase (js "Joshua")) ∧
  getMatchScore ascii_toLowerCase (js "Joshua") (js "shu") = 50%Z.
Proof.
  assert (Hp : ¬ js "shu" `prefix_of` ascii_toLowerCase (js "Joshua")).
  { intros [k Hk]. vm_compute in Hk. discriminate Hk. }
  assert (Hs : substring_of (js "shu") (ascii_toLowerCase (js "Joshua"))).
  { exists (js "jo"), (js "a"). reflexivity. }
  split; [exact ascii_toLowerCase_idem |].
  split; [exact Hp |]. split; [exact Hs |].
  exact (proj1 (proj2 (getMatchScore_tiers ascii_toLowerCase
           ascii_toLowerCase_idem (js "Joshua") (js "shu"))) Hp Hs).
Defined.

(** C4.  [fuzzyMatch] holds exactly when the code units of the query occur,
    in order, among those of the lower-cased text; its loop reads the text
    once from the left, the index never passing the length; Joshua Choong
    matches jc and Choong does not match jx. *)
Theorem fuzzyMatch_subsequence (toLowerCase : jsstring → jsstring)
    (text query : jsstring) :
  (fuzzyMatch toLowerCase text query = true ↔
   query `sublist_of` toLowerCase text) ∧
  (fst (fuzzy_loop query (toLowerCase text) 0 0) ≤ length (toLowerCase text))%nat ∧
  fuzzyMatch ascii_toLowerCase (js "Joshua Choong") (js "jc") = true ∧
  fuzzyMatch ascii_toLowerCase (js "Choong") (js "jx") = false.
Proof.
  split; [apply fuzzyMatch_sublist |].
  split; [| by split].
  pose proof (fuzzy_loop_bound query (toLowerCase text) 0 0). lia.
Qed.

(** C10.  A score is 0, 25, 50 or 100, and it is positive exactly when
    [fuzzyMatch] holds. *)
Theorem getMatchScore_positive_iff_fuzzyMatch (toLowerCase : jsstring → jsstring)
    (toLowerCase_idem : ∀ s, toLowerCase (toLowerCase s) = toLowerCase s)
    (text query : jsstring) :
  let score := getMatchScore toLowerCase text query in
  (score = 0%Z ∨ score = 25%Z ∨ score = 50%Z ∨ score = 100%Z) ∧
  ((0 < score)%Z ↔ fuzzyMatch toLowerCase text query = true).
Proof.
  split; [apply getMatchScore_values | by apply getMatchScore_positive].
Qed.

Lemma getMatchScore_positive_iff_fuzzyMatch_witness :
  (∀ s, ascii_toLowerCase (ascii_toLowerCase s) = ascii_toLowerCase s) ∧
  ((0 < getMatchScore ascii_toLowerCase (js "Joshua Choong") (js "jc"))%Z ↔
   fuzzyMatch ascii_toLowerCase (js "Joshua Choong") (js "jc") = true).
Proof.
  split; [exact ascii_toLowerCase_idem |].
  exact (proj2 (getMatchScore_positive_iff_fuzzyMatch ascii_toLowerCase
           ascii_toLowerCase_idem (js "Joshua Choong") (js "jc"))).
Defined.

(** ** Tooltip positioner *)

Section TooltipFacts.

Local Open Scope Q_scope.

Lemma Qlt_bool_true (a b : Q) : Qlt_bool a b = true ↔ a < b.
Proof.
  unfold Qlt_bool. rewrite negb_true_iff. split.
  - intros H. apply Qnot_le_lt. intros Hle.
    apply Qle_bool_iff in Hle. congruence.
  - intros H. destruct (Qle_bool b a) eqn:E; [|done].
    apply Qle_bool_iff in E. lra.
Qed.

Lemma Qlt_bool_false (a b : Q) : Qlt_bool a b = false ↔ b <= a.
Proof.
  unfold Qlt_bool. rewrite negb_false_iff. apply Qle_bool_iff.
Qed.

Lemma Qle_bool_false (a b : Q) : Qle_bool a b = false ↔ b < a.
Proof.
  split.
  - intros H. apply Qnot_le_lt. intros Hle.
    apply Qle_bool_iff in Hle. congruence.
  - intros H. destruct (Qle_bool a b) eqn:E; [|done].
    apply Qle_bool_iff in E. lra.
Qed.

Lemma Math_max_spec (a b : Q) :
  (a <= b ∧ Math_max a b = b) ∨ (b < a ∧ Math_max a b = a).
Proof.
  unfold Math_max. destruct (Qle_bool a b) eqn:E.
  - left. by apply Qle_bool_iff in E.
  - right. by apply Qle_bool_false in E.
Qed.

Lemma Math_min_spec (a b : Q) :
  (a <= b ∧ Math_min a b = a) ∨ (b < a ∧ Math_min a b = b).
Proof.
  unfold Math_min. destruct (Qle_bool a b) eqn:E.
  - left. by apply Qle_bool_iff in E.
  - right. by apply Qle_bool_false in E.
Qed.

Lemma clamp_left_bounds (window : Window) (x width : Q) :
  padding <= clamp_left window x width ∧
  (width + 2 * padding <= innerWidth window →
   clamp_left window x width + width <= innerWidth window - padding).
Proof.
  unfold clamp_left, padding.
  destruct (Math_min_spec (x - width / 2) (innerWidth window - width - 12))
    as [[? ->] | [? ->]];
  match goal with |- context [Math_max ?a ?b] =>
    destruct (Math_max_spec a b) as [[? ->] | [? ->]] end;
  split; intros; lra.
Qed.

End TooltipFacts.

(** Splits on the comparisons a placement went through, the test for room
    above the anchor first. *)
Ltac placement_cases :=
  repeat match goal with
  | |- context [if Qlt_bool ?a ?b then _ else _] =>
      lazymatch a with
      | context [Qlt_bool] => fail
      | _ => lazymatch b with context [Qlt_bool] => fail | _ => idtac end
      end;
      let E := fresh "E" in
      destruct (Qlt_bool a b) eqn:E;
      [apply Qlt_bool_true in E | apply Qlt_bool_false in E]
  end.

(** ** Claims on the tooltip positioner *)

Section TooltipClaims.

Local Open Scope Q_scope.

(** C5, counterexample.  A 560 by 400 window is twice the detailed estimate
    of 280 by 200 in each direction.  For a tooltip of that very size and the anchor (300, 200),
    neither the placement above nor the one below fits, the placement to
    the right overflows, and the flip to the left returns [left = -4]: the
    rectangle leaves the window. *)
Lemma positionTooltip_overflow_counterexample :
  let window := {| innerWidth := 560; innerHeight := 400 |} in
  let el := {| offsetWidth := 280; offsetHeight := 200 |} in
  let p := positionTooltip (Some el) window 300 200 true default_nodeRadius in
  (0 <= 300 <= innerWidth window ∧ 0 <= 200 <= innerHeight window ∧
   2 * 280 <= innerWidth window ∧ 2 * 200 <= innerHeight window) ∧
  pos_left p == -4 ∧ pos_top p == 100 ∧
  positionTooltip None window 300 200 true default_nodeRadius = p ∧
  ¬ within_padding window (offsetWidth el) (offsetHeight el) p.
Proof.
  cbv zeta. split; [| split; [| split; [| split]]].
  - cbn. repeat split; lra.
  - reflexivity.
  - reflexivity.
  - reflexivity.
  - intros (H & _). vm_compute in H. apply H. reflexivity.
Qed.

(** C5, amended.  Let [w] by [h] be the size the positioner works with.  When
    the anchor lies between the top and the bottom of the window, the window
    is at least [w + 2 * padding] wide and at least
    [2 * h + 2 * (nodeRadius + gap + padding)] high (that is [2 * h + 72] for
    the default radius), the returned rectangle lies in the window inset by
    the padding on every edge. *)
Theorem positionTooltip_within_padding (tooltipNode : option Size)
    (window : Window) (x y : Q) (isDetailed : bool) (nodeRadius : Q) :
  let w := tooltipWidth tooltipNode isDetailed in
  let h := tooltipHeight tooltipNode isDetailed in
  0 <= y <= innerHeight window →
  0 <= nodeRadius →
  w + 2 * padding <= innerWidth window →
  2 * h + 2 * (nodeRadius + gap + padding) <= innerHeight window →
  within_padding window w h
    (positionTooltip tooltipNode window x y isDetailed nodeRadius).
Proof.
  intros w h Hy Hr Hw Hh.
  destruct (clamp_left_bounds window x w) as [Hl1 Hl2].
  specialize (Hl2 Hw). unfold clamp_left in Hl1, Hl2.
  unfold within_padding, positionTooltip. fold w h.
  unfold padding, gap in *.
  placement_cases; cbn [pos_left pos_top]; repeat split; lra.
Qed.

Lemma positionTooltip_within_padding_witness :
  let window := {| innerWidth := 1280; innerHeight := 720 |} in
  let el := {| offsetWidth := 280; offsetHeight := 200 |} in
  within_padding window 280 200
    (positionTooltip (Some el) window 300 40 true default_nodeRadius).
Proof.
  cbv zeta.
  apply (positionTooltip_within_padding
           (Some {| offsetWidth := 280; offsetHeight := 200 |})
           {| innerWidth := 1280; innerHeight := 720 |}
           300 40 true default_nodeRadius);
    cbn; unfold padding, gap, default_nodeRadius; lra.
Defined.

(** C6, counterexample.  The anchor (300, -20) stands 20 above the top of a
    1280 by 720 window (the top of a circle that is cut by the top edge).
    Its placement above would start at -244, less than the padding; the
    placement below is taken, it fits, and its top is 4, less than the
    padding. *)
Lemma positionTooltip_above_window_counterexample :
  let window := {| innerWidth := 1280; innerHeight := 720 |} in
  let el := {| offsetWidth := 280; offsetHeight := 200 |} in
  let p := positionTooltip (Some el) window 300 (-20) true default_nodeRadius in
  (-20 - default_nodeRadius - offsetHeight el - gap < padding) ∧
  pos_top p == 4 ∧ pos_left p == 160 ∧
  ¬ (padding <= pos_top p).
Proof.
  cbv zeta. split; [| split; [| split]].
  - reflexivity.
  - reflexivity.
  - reflexivity.
  - intros H. vm_compute in H. apply H. reflexivity.
Qed.

(** C6, amended.  For an anchor whose placement above would put the top of
    the tooltip less than the padding from the top of the window, and which
    stands no more than [nodeRadius + gap - padding] above the top of the
    window, that is [padding <= y + nodeRadius + gap] (every anchor with
    [0 <= y] is such, the radius not being negative): the returned top is at
    least the padding and is not that of the placement above; the tooltip
    goes below the anchor, clamped horizontally, or level with the anchor to
    its right or left. *)
Theorem positionTooltip_near_top (tooltipNode : option Size)
    (window : Window) (x y : Q) (isDetailed : bool) (nodeRadius : Q) :
  let w := tooltipWidth tooltipNode isDetailed in
  let h := tooltipHeight tooltipNode isDetailed in
  let p := positionTooltip tooltipNode window x y isDetailed nodeRadius in
  padding <= y + nodeRadius + gap →
  y - nodeRadius - h - gap < padding →
  padding <= pos_top p ∧
  ¬ pos_top p == y - nodeRadius - h - gap ∧
  ((pos_top p == y + nodeRadius + gap ∧ pos_left p == clamp_left window x w) ∨
   (pos_top p == Math_max padding (y - h / 2) ∧
    (pos_left p == x + nodeRadius + gap ∨
     pos_left p == x - nodeRadius - w - gap))).
Proof.
  intros w h p Hy Habove.
  assert (Htop : padding <= pos_top p).
  { subst p. unfold positionTooltip. fold w h.
    destruct (Math_max_spec padding (y - h / 2)) as [[? Hm] | [? Hm]];
    unfold padding, gap in *;
    placement_cases; cbn [pos_left pos_top]; rewrite ?Hm; lra. }
  split; [exact Htop |]. split; [lra |].
  subst p. unfold positionTooltip, clamp_left. fold w h.
  placement_cases; cbn [pos_left pos_top];
    try (left; split; reflexivity);
    try (right; split; [reflexivity | (left; reflexivity) || (right; reflexivity)]);
    unfold padding, gap in *; lra.
Qed.

Lemma positionTooltip_near_top_witness :
  let window := {| innerWidth := 1280; innerHeight := 720 |} in
  let el := {| offsetWidth := 280; offsetHeight := 200 |} in
  let p := positionTooltip (Some el) window 300 (-5) true default_nodeRadius in
  padding <= -5 + default_nodeRadius + gap ∧
  -5 - default_nodeRadius - offsetHeight el - gap < padding ∧
  padding <= pos_top p.
Proof.
  cbv zeta.
  assert (H1 : padding <= -5 + default_nodeRadius + gap)
    by (vm_compute; discriminate).
  assert (H2 : -5 - default_nodeRadius - 200 - gap < padding)
    by reflexivity.
  split; [exact H1 |]. split; [exact H2 |].
  exact (proj1 (positionTooltip_near_top
           (Some {| offsetWidth := 280; offsetHeight := 200 |})
           {| innerWidth := 1280; innerHeight := 720 |}
           300 (-5) true default_nodeRadius H1 H2)).
Defined.

End TooltipClaims.

(** ** Relationship builder *)

Lemma map_has_elem (key : jsstring) (m : YearGroups) :
  map_has key m = true ↔ key ∈ m.*1.
Proof.
  induction m as [|[k v] m IH]; simpl.
  - split; [done | by intros ?%elem_of_nil].
  - rewrite orb_true_iff, bool_decide_eq_true, IH, elem_of_cons. intuition congruence.
Qed.

Lemma map_push_new (key : jsstring) (node : Node) (m : YearGroups) :
  key ∉ m.*1 →
  map_push key node (map_set key [] m) = m ++ [(key, [node])].
Proof.
  induction m as [|[k v] m IH]; simpl; intros Hk.
  - by rewrite bool_decide_eq_true_2.
  - apply not_elem_of_cons in Hk as [Hne Hk].
    rewrite bool_decide_eq_false_2 by done. simpl.
    rewrite bool_decide_eq_false_2 by done. by rewrite IH.
Qed.

Lemma map_push_known (key : jsstring) (node : Node) (m1 m2 : YearGroups) g :
  key ∉ m1.*1 →
  map_push key node (m1 ++ (key, g) :: m2) = m1 ++ (key, g ++ [node]) :: m2.
Proof.
  induction m1 as [|[k v] m1 IH]; simpl; intros Hk.
  - by rewrite bool_decide_eq_true_2.
  - apply not_elem_of_cons in Hk as [Hne Hk].
    rewrite bool_decide_eq_false_2 by done. by rewrite IH.
Qed.

Lemma yearGroups_step_new (m : YearGroups) (node : Node) :
  cohort_key node ∉ m.*1 →
  yearGroups_step m node = m ++ [(cohort_key node, [node])].
Proof.
  intros Hk. unfold yearGroups_step.
  destruct (map_has _ m) eqn:E.
  - by apply map_has_elem in E.
  - simpl. by apply map_push_new.
Qed.

Lemma yearGroups_step_known (m1 m2 : YearGroups) (node : Node) g :
  cohort_key node ∉ m1.*1 →
  yearGroups_step (m1 ++ (cohort_key node, g) :: m2) node =
  m1 ++ (cohort_key node, g ++ [node]) :: m2.
Proof.
  intros Hk. unfold yearGroups_step.
  destruct (map_has _ _) eqn:E.
  - simpl. by apply map_push_known.
  - assert (map_has (cohort_key node) (m1 ++ (cohort_key node, g) :: m2) = true)
      as E'; [| congruence].
    apply map_has_elem. rewrite fmap_app, elem_of_app. right. simpl. left.
Qed.

Lemma filter_snoc_key (k : jsstring) (nodes : list Node) (node : Node) :
  filter (λ n, cohort_key n = k) (nodes ++ [node]) =
  filter (λ n, cohort_key n = k) nodes
  ++ (if bool_decide (cohort_key node = k) then [node] else []).
Proof.
  rewrite filter_app. f_equal.
  rewrite filter_cons, filter_nil.
  case_decide; [by rewrite bool_decide_eq_true_2 | by rewrite bool_decide_eq_false_2].
Qed.

Lemma groups_by_cohort_step (nodes : list Node) (node : Node) (m : YearGroups) :
  groups_by_cohort nodes m →
  groups_by_cohort (nodes ++ [node]) (yearGroups_step m node).
Proof.
  intros (Hnd & Hgroups & Hkeys).
  destruct (decide (cohort_key node ∈ m.*1)) as [Hin | Hnin].
  - apply list_elem_of_fmap in Hin as ([k g] & Hk & Hkg). simpl in Hk. subst k.
    apply list_elem_of_split in Hkg as (m1 & m2 & ->).
    assert (Hfresh : (cohort_key node ∉ m1.*1) ∧ (cohort_key node ∉ m2.*1)).
    { rewrite fmap_app in Hnd. simpl in Hnd.
      apply NoDup_app in Hnd as (_ & H1 & H2).
      apply NoDup_cons in H2 as [H2 _]. split; [|done].
      intros H. apply (H1 _ H). left. }
    destruct Hfresh as [Hf1 Hf2].
    rewrite yearGroups_step_known by done. repeat split.
    + rewrite fmap_app in *. done.
    + apply elem_of_app in H as [H | [H | H]%elem_of_cons].
      * apply (Hgroups k g0). apply elem_of_app. by left.
      * simplify_eq. by intros [? ?]%app_eq_nil.
      * apply (Hgroups k g0). apply elem_of_app. right. by right.
    + rewrite filter_snoc_key.
      apply elem_of_app in H as [H | [H | H]%elem_of_cons].
      * assert (cohort_key node ≠ k).
        { intros <-. apply Hf1, list_elem_of_fmap. by exists (cohort_key node, g0). }
        rewrite bool_decide_eq_false_2, app_nil_r by done.
        apply (Hgroups k g0). apply elem_of_app. by left.
      * simplify_eq. rewrite bool_decide_eq_true_2 by done. f_equal.
        apply (Hgroups (cohort_key node) g). apply elem_of_app. right. left.
      * assert (cohort_key node ≠ k).
        { intros <-. apply Hf2, list_elem_of_fmap. by exists (cohort_key node, g0). }
        rewrite bool_decide_eq_false_2, app_nil_r by done.
        apply (Hgroups k g0). apply elem_of_app. right. by right.
    + intros n [Hn | ->%list_elem_of_singleton]%elem_of_app.
      * specialize (Hkeys n Hn). rewrite fmap_app in *. done.
      * rewrite fmap_app, elem_of_app. right. left.
  - rewrite yearGroups_step_new by done. repeat split.
    + rewrite fmap_app. apply NoDup_app. split; [done|]. split.
      * intros k Hk [->|[]%elem_of_nil]%elem_of_cons. done.
      * apply NoDup_singleton.
    + apply elem_of_app in H as [H | H%list_elem_of_singleton].
      * by apply (Hgroups k g).
      * by simplify_eq.
    + rewrite filter_snoc_key.
      apply elem_of_app in H as [H | H%list_elem_of_singleton].
      * assert (cohort_key node ≠ k).
        { intros <-. apply Hnin, list_elem_of_fmap. by exists (cohort_key node, g). }
        rewrite bool_decide_eq_false_2, app_nil_r by done.
        by apply (Hgroups k g).
      * simplify_eq. rewrite bool_decide_eq_true_2 by done.
        replace (filter _ nodes) with (@nil Node); [done|].
        symmetry. apply elem_of_nil_inv.
        intros n [Hkey Hn]%list_elem_of_filter.
        apply Hnin. rewrite <- Hkey. by apply Hkeys.
    + intros n [Hn | ->%list_elem_of_singleton]%elem_of_app.
      * rewrite fmap_app, elem_of_app. left. by apply Hkeys.
      * rewrite fmap_app, elem_of_app. right. left.
Qed.

Lemma build_yearGroups_snoc (nodes : list Node) (node : Node) :
  build_yearGroups (nodes ++ [node]) =
  yearGroups_step (build_yearGroups nodes) node.
Proof. unfold build_yearGroups. by rewrite fold_left_app. Qed.

Lemma build_yearGroups_by_cohort (nodes : list Node) :
  groups_by_cohort nodes (build_yearGroups nodes).
Proof.
  induction nodes as [|node nodes IH] using rev_ind.
  - repeat split; simpl.
    + apply NoDup_nil_2.
    + by apply elem_of_nil in H.
    + by apply elem_of_nil in H.
    + by intros n ?%elem_of_nil.
  - rewrite build_yearGroups_snoc. by apply groups_by_cohort_step.
Qed.

(** *** Links of one group *)

Lemma ring_step_app (g : list Node) (links : list Link) (i : nat) :
  ring_step g links i = links ++ ring_step g [] i.
Proof.
  unfold ring_step. repeat case_match; simpl; by rewrite ?app_nil_r.
Qed.

Lemma ring_fold_app (g : list Node) (idx : list nat) (links : list Link) :
  fold_left (ring_step g) idx links = links ++ fold_left (ring_step g) idx [].
Proof.
  revert links. induction idx as [|i idx IH]; intros links; simpl.
  - by rewrite app_nil_r.
  - rewrite IH, (IH (ring_step g [] i)), (ring_step_app g links i).
    by rewrite app_assoc.
Qed.

Lemma group_links_app (links : list Link) (g : list Node) :
  group_links links g = links ++ group_edges g.
Proof.
  unfold group_edges, group_links.
  repeat case_match; simpl; rewrite ?app_nil_r; try done.
  apply ring_fold_app.
Qed.

Lemma build_links_fold (gs : list (list Node)) (links : list Link) :
  fold_left group_links gs links = links ++ concat (group_edges <$> gs).
Proof.
  revert links. induction gs as [|g gs IH]; intros links; simpl.
  - by rewrite app_nil_r.
  - by rewrite IH, group_links_app, app_assoc.
Qed.

Lemma build_links_concat (nodes : list Node) :
  build_links nodes = concat (group_edges <$> (build_yearGroups nodes).*2).
Proof. unfold build_links. by rewrite build_links_fold. Qed.

(** After [n] rounds the ring loop has pushed [n] links, the one of round
    [i] going from node [i] to node [i + 1] modulo the size of the group. *)
Lemma ring_rounds (g : list Node) (n : nat) :
  n ≤ length g →
  let links := fold_left (ring_step g) (seq 0 n) [] in
  length links = n ∧
  ∀ i a b, i < n → g !! i = Some a → g !! ((i + 1) mod length g) = Some b →
           links !! i = Some (make_link a b).
Proof.
  induction n as [|n IH]; intros Hn; cbv zeta.
  - split; [done | intros; lia].
  - rewrite seq_S, fold_left_app. simpl.
    destruct IH as [Hlen Hlinks]; [lia|].
    destruct (lookup_lt_is_Some_2 g n) as [a Ha]; [lia|].
    destruct (lookup_lt_is_Some_2 g ((n + 1) mod length g)) as [b Hb].
    { apply Nat.mod_upper_bound. lia. }
    assert (Hstep : ∀ links,
      ring_step g links n = links ++ [make_link a b]).
    { intros links. unfold ring_step. by rewrite Ha, Hb. }
    rewrite Hstep. split.
    + rewrite length_app. simpl. lia.
    + intros i a' b' Hi Ha' Hb'.
      destruct (decide (i = n)) as [-> | Hne].
      * rewrite lookup_app_r by lia. rewrite Hlen, Nat.sub_diag. simpl.
        congruence.
      * rewrite lookup_app_l by lia. apply Hlinks; [lia | done | done].
Qed.

Lemma group_edges_one (g : list Node) :
  length g = 1 → group_edges g = [].
Proof. intros H. unfold group_edges, group_links. by rewrite H. Qed.

Lemma group_edges_two (g : list Node) :
  length g = 2 → ∃ a b, g = [a; b] ∧ group_edges g = [make_link a b].
Proof.
  intros H. destruct g as [|a [|b [|c g]]]; try done.
  by exists a, b.
Qed.

Lemma group_edges_ring (g : list Node) :
  3 ≤ length g →
  length (group_edges g) = length g ∧
  ∀ i a b, g !! i = Some a → g !! ((i + 1) mod length g) = Some b →
           group_edges g !! i = Some (make_link a b).
Proof.
  intros H. unfold group_edges, group_links.
  destruct (Nat.eqb_spec (length g) 1) as [?|_]; [lia|].
  destruct (Nat.eqb_spec (length g) 2) as [?|_]; [lia|].
  destruct (ring_rounds g (length g)) as [Hlen Hlinks]; [lia|].
  split; [done|]. intros i a b Ha Hb.
  apply Hlinks; [|done|done]. by eapply lookup_lt_Some.
Qed.

(** Every link of a group joins two nodes of that group. *)
Lemma group_edges_inside (g : list Node) (e : Link) :
  e ∈ group_edges g → ∃ a b, a ∈ g ∧ b ∈ g ∧ e = make_link a b.
Proof.
  intros He.
  destruct (decide (length g ≤ 2)) as [Hsmall | Hbig].
  - destruct g as [|a [|b [|c g]]]; simpl in Hsmall; try lia.
    + by apply elem_of_nil in He.
    + by apply elem_of_nil in He.
    + apply list_elem_of_singleton in He as ->.
      exists a, b. repeat split; [left | right; left].
  - destruct (group_edges_ring g) as [Hlen Hlinks]; [lia|].
    apply list_elem_of_lookup in He as [i Hi].
    assert (i < length g) as Hlt.
    { rewrite <- Hlen. by eapply lookup_lt_Some. }
    destruct (lookup_lt_is_Some_2 g i Hlt) as [a Ha].
    destruct (lookup_lt_is_Some_2 g ((i + 1) mod length g)) as [b Hb].
    { apply Nat.mod_upper_bound. lia. }
    exists a, b. rewrite (Hlinks i a b Ha Hb) in Hi.
    repeat split; [by eapply list_elem_of_lookup_2
                  | by eapply list_elem_of_lookup_2 | congruence].
Qed.

Lemma NoDup_fmap_eq {A B} (f : A → B) (l : list A) (x y : A) :
  NoDup (f <$> l) → x ∈ l → y ∈ l → f x = f y → x = y.
Proof.
  induction l as [|z l IH]; simpl; intros Hnd Hx Hy Hf.
  - by apply elem_of_nil in Hx.
  - apply NoDup_cons in Hnd as [Hz Hnd].
    apply elem_of_cons in Hx as [-> | Hx]; apply elem_of_cons in Hy as [-> | Hy].
    + done.
    + exfalso. apply Hz. rewrite Hf. by apply list_elem_of_fmap_2.
    + exfalso. apply Hz. rewrite <- Hf. by apply list_elem_of_fmap_2.
    + by apply IH.
Qed.

(** Every link joins two nodes of the input that have the same cohort
    key. *)
Lemma build_links_inside (nodes : list Node) (e : Link) :
  e ∈ build_links nodes →
  ∃ a b, a ∈ nodes ∧ b ∈ nodes ∧ cohort_key a = cohort_key b ∧
         e = make_link a b.
Proof.
  rewrite build_links_concat. intros He.
  apply list_elem_of_In, in_concat in He as (es & Hes & He).
  apply list_elem_of_In in Hes, He.
  apply list_elem_of_fmap in Hes as (g & -> & Hg).
  apply list_elem_of_fmap in Hg as ([k g'] & Hk & Hkg). simpl in Hk. subst g'.
  destruct (build_yearGroups_by_cohort nodes) as (_ & Hgroups & _).
  destruct (Hgroups k g Hkg) as [_ Hfilter].
  destruct (group_edges_inside g e He) as (a & b & Ha & Hb & ->).
  rewrite Hfilter in Ha, Hb.
  apply list_elem_of_filter in Ha as [Hka Ha], Hb as [Hkb Hb].
  exists a, b. repeat split; try done. congruence.
Qed.

(** ** Claim on the relationship builder *)

(** C2.  The key of a node is its graduation year as it stands, or the word
    unknown when the year is missing (null or empty).  The year groups split
    the nodes by that key: keys are distinct, two nodes are in one group
    exactly when their keys are equal, and each group is the list of the
    nodes with its key in the order of the input.  The links are those of
    the groups, one group after another: none for a group of one node, one
    for a group of two, from the identifier of the first to that of the
    second, and for a group of [N] nodes, [N] at least 3, the [N] links of a
    ring, link [i] going from the identifier of node [i] to that of node
    [i + 1], the last one back to node 0.  Every link joins two nodes of the
    same cohort; when identifiers are unique, any two nodes whose
    identifiers a link carries are of the same cohort. *)
Theorem relationship_builder_cohorts (nodes : list Node) :
  let groups := build_yearGroups nodes in
  (∀ n year, node_graduationYear n = Some year → year ≠ [] →
             cohort_key n = year) ∧
  (∀ n, node_graduationYear n = None ∨ node_graduationYear n = Some [] →
        cohort_key n = js "unknown") ∧
  NoDup groups.*1 ∧
  (∀ n, n ∈ nodes → ∃ g, (cohort_key n, g) ∈ groups ∧ n ∈ g) ∧
  (∀ k g, (k, g) ∈ groups →
     g ≠ [] ∧ g = filter (λ n, cohort_key n = k) nodes) ∧
  (∀ a b, a ∈ nodes → b ∈ nodes →
     (∃ k g, (k, g) ∈ groups ∧ a ∈ g ∧ b ∈ g) ↔ cohort_key a = cohort_key b) ∧
  build_links nodes = concat (group_edges <$> groups.*2) ∧
  (∀ g, length g = 1 → group_edges g = []) ∧
  (∀ g, length g = 2 →
     ∃ a b, g = [a; b] ∧
            group_edges g = [{| source := node_id a; target := node_id b |}]) ∧
  (∀ g, 3 ≤ length g →
     length (group_edges g) = length g ∧
     ∀ i a b, g !! i = Some a → g !! ((i + 1) mod length g) = Some b →
              group_edges g !! i
              = Some {| source := node_id a; target := node_id b |}) ∧
  (∀ e, e ∈ build_links nodes →
     ∃ a b, a ∈ nodes ∧ b ∈ nodes ∧ cohort_key a = cohort_key b ∧
            source e = node_id a ∧ target e = node_id b) ∧
  (NoDup (node_id <$> nodes) →
   ∀ e a b, e ∈ build_links nodes → a ∈ nodes → b ∈ nodes →
            node_id a = source e → node_id b = target e →
            cohort_key a = cohort_key b).
Proof.
  intros groups.
  destruct (build_yearGroups_by_cohort nodes) as (Hnd & Hgroups & Hkeys).
  assert (Hgroup : ∀ n, n ∈ nodes → ∃ g, (cohort_key n, g) ∈ groups ∧ n ∈ g).
  { intros n Hn. specialize (Hkeys n Hn).
    apply list_elem_of_fmap in Hkeys as ([k g] & Hk & Hkg). simpl in Hk.
    subst k. exists g. split; [done|].
    destruct (Hgroups _ _ Hkg) as [_ ->].
    by apply list_elem_of_filter. }
  split.
  { intros n year Hyear Hne. unfold cohort_key. rewrite Hyear.
    by destruct year. }
  split.
  { intros n [Hyear | Hyear]; unfold cohort_key; by rewrite Hyear. }
  split; [done|]. split; [done|]. split; [done|]. split.
  { intros a b Ha Hb. split.
    - intros (k & g & Hkg & Hag & Hbg).
      destruct (Hgroups k g Hkg) as [_ Hfilter].
      rewrite Hfilter in Hag, Hbg.
      apply list_elem_of_filter in Hag as [-> _].
      by apply list_elem_of_filter in Hbg as [-> _].
    - intros Hab. destruct (Hgroup a Ha) as (g & Hkg & Hag).
      exists (cohort_key a), g. split; [done|]. split; [done|].
      destruct (Hgroups _ _ Hkg) as [_ Hfilter]. rewrite Hfilter.
      by apply list_elem_of_filter. }
  split; [apply build_links_concat|].
  split; [apply group_edges_one|]. split; [apply group_edges_two|].
  split; [apply group_edges_ring|]. split.
  { intros e He.
    destruct (build_links_inside nodes e He) as (a & b & Ha & Hb & Hk & ->).
    by exists a, b. }
  intros Hids e a b He Ha Hb Hsrc Htgt.
  destruct (build_links_inside nodes e He) as (a' & b' & Ha' & Hb' & Hk & ->).
  simpl in Hsrc, Htgt.
  rewrite (NoDup_fmap_eq node_id nodes a a'), (NoDup_fmap_eq node_id nodes b b');
    done.
Qed.

(** The scenario of three contributors of one year: identifiers and ring. *)
Example sample_ring :
  node_id <$> sample_nodes = [js "alice"; js "bob"; js "cara"] ∧
  build_links sample_nodes =
    [ {| source := js "alice"; target := js "bob" |};
      {| source := js "bob"; target := js "cara" |};
      {| source := js "cara"; target := js "alice" |} ].
Proof. split; reflexivity. Qed.

(** ** Search input handler *)

Section SearchFacts.

Variable toLowerCase : jsstring → jsstring.

Local Open Scope Z_scope.

Lemma getMatchScore_empty_query (text : jsstring) :
  getMatchScore toLowerCase text [] = 100.
Proof. reflexivity. Qed.

Lemma fuzzyMatch_empty_query (text : jsstring) :
  fuzzyMatch toLowerCase text [] = true.
Proof.
  apply fuzzyMatch_sublist, sublist_nil_l.
Qed.

Lemma card_score_empty_query (card : CardElement) :
  card_score toLowerCase [] card = 100.
Proof. reflexivity. Qed.

Lemma getMatchScore_nonneg (text query : jsstring) :
  0 ≤ getMatchScore toLowerCase text query.
Proof.
  destruct (getMatchScore_values toLowerCase text query) as [H|[H|[H|H]]];
    rewrite H; lia.
Qed.

(** A card without a year label scores on its name alone. *)
Lemma card_score_effective (query : jsstring) (card : CardElement) :
  toLowerCase [] = [] → query ≠ [] →
  card_score toLowerCase query card = effective_score toLowerCase query card.
Proof.
  intros Hnil Hq. unfold card_score, effective_score.
  destruct (card_year card) as [label|]; [done|]. f_equal.
  unfold getMatchScore, fuzzyMatch. rewrite !Hnil.
  destruct query as [|q query]; [done|]. reflexivity.
Qed.

Lemma search_card_done (query : jsstring) (st : CardLoop) (card : CardElement) :
  cl_done (search_card toLowerCase query st card) =
  cl_done st ++ [classify_card toLowerCase query card].
Proof. unfold search_card. by case_match. Qed.

(** What the card loop has in its variables after a run over [cards]. *)
Lemma card_loop_state (query : jsstring) (cards : list CardElement) :
  let st := fold_left (search_card toLowerCase query) cards card_loop_start in
  cl_done st = classify_card toLowerCase query <$> cards ∧
  0 ≤ bestScore st ∧
  (∀ c, c ∈ cards → card_score toLowerCase query c ≤ bestScore st) ∧
  match firstMatch st with
  | None => bestScore st = 0
  | Some i =>
      ∃ c, cards !! i = Some c ∧
           card_score toLowerCase query c = bestScore st ∧
           0 < bestScore st ∧
           ∀ j c', (j < i)%nat → cards !! j = Some c' →
                   card_score toLowerCase query c' < bestScore st
  end.
Proof.
  induction cards as [|card cards IH] using rev_ind; cbv zeta.
  - simpl. repeat split; [done | by intros c ?%elem_of_nil].
  - rewrite fold_left_app. simpl.
    set (st := fold_left _ cards _) in *.
    destruct IH as (Hdone & Hpos & Hmax & Hfirst).
    split. { by rewrite search_card_done, Hdone, fmap_app. }
    unfold search_card.
    destruct ((0 <? card_score toLowerCase query card)
              && (bestScore st <? card_score toLowerCase query card)) eqn:E;
      cbn [firstMatch bestScore].
    + apply andb_true_iff in E as [E1%Z.ltb_lt E2%Z.ltb_lt].
      split; [lia|]. split.
      * intros c [Hc | ->%list_elem_of_singleton]%elem_of_app; [|lia].
        specialize (Hmax c Hc). lia.
      * exists card. rewrite Hdone, length_fmap.
        split; [by rewrite lookup_app_r, Nat.sub_diag by lia|].
        split; [done|]. split; [done|].
        intros j c' Hj Hc'. rewrite lookup_app_l in Hc' by done.
        apply list_elem_of_lookup_2, Hmax in Hc'. lia.
    + apply andb_false_iff in E.
      assert (card_score toLowerCase query card ≤ bestScore st) as Hle.
      { destruct E as [E%Z.ltb_ge | E%Z.ltb_ge]; lia. }
      split; [done|]. split.
      * intros c [Hc | ->%list_elem_of_singleton]%elem_of_app; [|done].
        by apply Hmax.
      * destruct (firstMatch st) as [i|]; [|done].
        destruct Hfirst as (c & Hc & Hscore & Hbest & Hbefore).
        exists c. split; [by apply lookup_app_l_Some|].
        split; [done|]. split; [done|].
        intros j c' Hj Hc'. apply (Hbefore j c' Hj).
        rewrite lookup_app_l in Hc'; [done|].
        apply lookup_lt_Some in Hc. lia.
Qed.

Lemma search_query_scroll (query : jsstring) (p : Page) :
  query ≠ [] →
  (search_query toLowerCase query p).2 =
  firstMatch (fold_left (search_card toLowerCase query) (cardElements p)
                card_loop_start).
Proof. by destruct query. Qed.

End SearchFacts.

(** ** Claims on the search input handler *)

(** C7.  When the text of the search box, lower-cased and trimmed, is empty,
    the handler takes [search-match] and [search-dim] off every graph node
    and every sidebar card, whatever classes they had, changes nothing else
    and scrolls nowhere. *)
Theorem search_input_empty_clears (toLowerCase : jsstring → jsstring)
    (value : jsstring) (p : Page) :
  trim (toLowerCase value) = [] →
  let p' := (search_input toLowerCase value p).1 in
  nodeElements p' = node_set_search false false <$> nodeElements p ∧
  cardElements p' = card_set_search false false <$> cardElements p ∧
  (∀ el, el ∈ nodeElements p' →
     ne_search_match el = false ∧ ne_search_dim el = false) ∧
  (∀ c, c ∈ cardElements p' →
     card_search_match c = false ∧ card_search_dim c = false) ∧
  (search_input toLowerCase value p).2 = None.
Proof.
  intros Hq. unfold search_input. rewrite Hq. simpl.
  repeat split; try done.
  - by apply list_elem_of_fmap in H as (el' & -> & _).
  - by apply list_elem_of_fmap in H as (el' & -> & _).
  - by apply list_elem_of_fmap in H as (c' & -> & _).
  - by apply list_elem_of_fmap in H as (c' & -> & _).
Qed.

Lemma search_input_empty_clears_witness :
  trim (ascii_toLowerCase (js "  ")) = [] ∧
  (ne_search_match <$> nodeElements searched_page = [true; false; false]) ∧
  (ne_search_dim <$> nodeElements searched_page = [false; true; true]) ∧
  (∀ c, c ∈ cardElements
             (search_input ascii_toLowerCase (js "  ") searched_page).1 →
     card_search_match c = false ∧ card_search_dim c = false).
Proof.
  assert (Hq : trim (ascii_toLowerCase (js "  ")) = []) by reflexivity.
  split; [exact Hq |]. split; [reflexivity |]. split; [reflexivity |].
  exact (proj1 (proj2 (proj2 (proj2
           (search_input_empty_clears ascii_toLowerCase (js "  ")
              searched_page Hq))))).
Defined.

(** The card loop ends on the first card of greatest score, the score
    being that of the texts of the card: for a query that is not empty and
    a list in which some card has a positive score, the handler scrolls to
    a card whose score is the highest of the list, and every card before it
    scores strictly less. *)
Lemma search_scrolls_to_first_best (toLowerCase : jsstring → jsstring)
    (value : jsstring) (p : Page) :
  let query := trim (toLowerCase value) in
  let score := effective_score toLowerCase query in
  toLowerCase [] = [] →
  query ≠ [] →
  (∃ c, c ∈ cardElements p ∧ (0 < score c)%Z) →
  ∃ i c,
    (search_input toLowerCase value p).2 = Some i ∧
    cardElements p !! i = Some c ∧
    (∀ c', c' ∈ cardElements p → (score c' ≤ score c)%Z) ∧
    (∀ j c', j < i → cardElements p !! j = Some c' → (score c' < score c)%Z).
Proof.
  intros query score Hnil Hq (c0 & Hc0 & Hpos).
  assert (Hscore : ∀ c, card_score toLowerCase query c = score c).
  { intros c. by apply card_score_effective. }
  unfold search_input. fold query. rewrite search_query_scroll by done.
  destruct (card_loop_state toLowerCase query (cardElements p))
    as (_ & _ & Hmax & Hfirst).
  destruct (firstMatch _) as [i|].
  - destruct Hfirst as (c & Hc & Hbest & _ & Hbefore).
    exists i, c. split; [done|]. split; [done|]. split.
    + intros c' Hc'. rewrite <- !Hscore, Hbest. by apply Hmax.
    + intros j c' Hj Hc'. rewrite <- !Hscore, Hbest. by eapply Hbefore.
  - specialize (Hmax c0 Hc0). rewrite Hscore, Hfirst in Hmax. lia.
Qed.

(** C8.  The card the handler scrolls to is chosen by the texts of the
    cards, and the text of a year element is [Class of <year>], not the
    graduation year, which is what the node loop of the same handler
    scores.  On the page loaded from Bob of the year 2020 and Cleo of the
    year 2021, the query cl scores 0 on Bob, on his name and on his year,
    and 100 on Cleo: the node loop highlights the node of Cleo alone.  The
    card loop gives both cards 100, the card of Bob for its text
    Class of 2020; it highlights both cards and scrolls to the card of Bob,
    the first of the two, whose score on name and cohort is 0. *)
Theorem search_scrolls_to_year_text_match :
  let p := initial_page two_cohorts in
  let query := trim (ascii_toLowerCase (js "cl")) in
  let r := search_input ascii_toLowerCase (js "cl") p in
  node_name <$> two_cohorts = [js "Bob"; js "Cleo"] ∧
  node_graduationYear <$> two_cohorts = [Some (js "2020"); Some (js "2021")] ∧
  cohort_key <$> two_cohorts = [js "2020"; js "2021"] ∧
  query = js "cl" ∧
  (∀ q el, ne_search_match (search_node ascii_toLowerCase q el) =
           (0 <? node_score ascii_toLowerCase q (ne_datum el))%Z) ∧
  node_score ascii_toLowerCase query <$> two_cohorts = [0; 100]%Z ∧
  ne_search_match <$> nodeElements r.1 = [false; true] ∧
  card_name <$> cardElements p = [js "Bob"; js "Cleo"] ∧
  card_year <$> cardElements p =
    [Some (js "Class of 2020"); Some (js "Class of 2021")] ∧
  card_score ascii_toLowerCase query <$> cardElements p = [100; 100]%Z ∧
  card_search_match <$> cardElements r.1 = [true; true] ∧
  r.2 = Some 0.
Proof.
  cbv zeta. repeat split; reflexivity.
Qed.

(** The search for AR in the sample scrolls to Cara, the third card. *)
Example search_sample_scroll :
  (search_input ascii_toLowerCase (js " AR") (initial_page sample_nodes)).2
  = Some 2.
Proof. reflexivity. Qed.

(** C9.  Against the empty query every text matches, and scores 100; the
    classification of the search loops would mark every node and every card
    a match of score 100.  The handler does not get there: on the empty
    query it clears the marks of every node and card. *)
Theorem empty_query_matches_everything (toLowerCase : jsstring → jsstring)
    (text : jsstring) :
  fuzzyMatch toLowerCase text [] = true ∧
  getMatchScore toLowerCase text [] = 100%Z ∧
  (∀ card, card_score toLowerCase [] card = 100%Z ∧
           card_search_match (classify_card toLowerCase [] card) = true) ∧
  (∀ el, ne_search_match (search_node toLowerCase [] el) = true) ∧
  (∀ p, cardElements (search_query toLowerCase [] p).1
          = card_set_search false false <$> cardElements p ∧
        nodeElements (search_query toLowerCase [] p).1
          = node_set_search false false <$> nodeElements p).
Proof.
  split; [apply fuzzyMatch_empty_query |].
  split; [reflexivity |]. split; [by intros card |].
  split; [| by intros p].
  intros el. unfold search_node. simpl.
  by destruct (node_graduationYear _) as [[|??]|].
Qed.

(** ** Click handlers *)

Lemma select_card_Some (id : jsstring) (cards : list CardElement) (j : nat) :
  select_card id cards = Some j →
  ∃ c, cards !! j = Some c ∧ card_data_id c = id.
Proof.
  revert j. induction cards as [|c cards IH]; intros j; simpl; [done|].
  case_bool_decide as Hid.
  - intros [= <-]. by exists c.
  - destruct (select_card id cards) as [j'|]; simpl; [|done].
    intros [= <-]. by apply IH.
Qed.

Lemma select_card_is_Some (id : jsstring) (cards : list CardElement) :
  (∃ c, c ∈ cards ∧ card_data_id c = id) → is_Some (select_card id cards).
Proof.
  intros (c & Hc & Hid). induction cards as [|c' cards IH]; simpl.
  - by apply elem_of_nil in Hc.
  - case_bool_decide; [done|].
    apply elem_of_cons in Hc as [-> | Hc]; [done|].
    destruct (IH Hc) as [j ->]. done.
Qed.

(** One element switched on after all were switched off: it is the only
    one on. *)
Lemma filter_alter_one {A} (P : A → Prop) `{∀ x, Decision (P x)}
    (on off : A → A) (l : list A) (i : nat) (x : A) :
  (∀ y, P (on y)) → (∀ y, ¬ P (off y)) →
  l !! i = Some x →
  filter P (alter on i (off <$> l)) = [on (off x)].
Proof.
  intros Hon Hoff. revert i.
  assert (Hnone : ∀ k : list A, filter P (off <$> k) = []).
  { intros k. apply elem_of_nil_inv.
    intros y [Hy (z & -> & _)%list_elem_of_fmap]%list_elem_of_filter.
    by apply (Hoff z). }
  induction l as [|z l IH]; intros [|i]; simpl; try done.
  - intros [= ->]. rewrite filter_cons_True by done. by rewrite Hnone.
  - intros Hi. rewrite filter_cons_False by done. by apply IH.
Qed.

Lemma filter_all_off {A} (P : A → Prop) `{∀ x, Decision (P x)}
    (off : A → A) (l : list A) :
  (∀ y, ¬ P (off y)) → filter P (off <$> l) = [].
Proof.
  intros Hoff. apply elem_of_nil_inv.
  intros y [Hy (z & -> & _)%list_elem_of_fmap]%list_elem_of_filter.
  by apply (Hoff z).
Qed.

(** A click on the circle of node [i] leaves that node as the only active
    node and the first card with its identifier as the only active card. *)
Lemma circle_click_active (p : Page) (i : nat) (el : NodeElement) :
  nodeElements p !! i = Some el →
  (∃ c, c ∈ cardElements p ∧ card_data_id c = node_id (ne_datum el)) →
  ∃ el' c',
    active_nodes (dispatch p (ClickCircle i)) = [el'] ∧
    active_cards (dispatch p (ClickCircle i)) = [c'] ∧
    ne_datum el' = ne_datum el ∧
    card_data_id c' = node_id (ne_datum el').
Proof.
  intros Hel Hcard. simpl. unfold circle_click. rewrite Hel.
  unfold active_nodes, active_cards. cbn [nodeElements cardElements showDetailedTooltip].
  assert (Hsel : is_Some (select_card (node_id (ne_datum el))
                            (card_set_active false <$> cardElements p))).
  { apply select_card_is_Some. destruct Hcard as (c & Hc & Hid).
    exists (card_set_active false c). split; [|done].
    by apply list_elem_of_fmap_2. }
  destruct Hsel as [j Hj]. rewrite Hj.
  apply select_card_Some in Hj as (c & Hc & Hid).
  apply list_lookup_fmap_Some in Hc as (c0 & -> & Hc0).
  exists (node_set_active true (node_set_active false el)),
         (card_set_active true (card_set_active false c0)).
  split; [by apply filter_alter_one|].
  split; [by apply filter_alter_one|]. done.
Qed.

Lemma frame_marks_detailed (t : Tooltip) (callbacks : list FrameCallback) :
  tt_detailed (fold_left run_callback (callbacks ++ [ShowDetailed]) t) = true.
Proof. by rewrite fold_left_app. Qed.

(** Once the detailed tooltip is up, a click away from nodes and cards
    leaves no node and no card active. *)
Lemma outside_click_clears (p : Page) :
  tt_detailed (tooltip p) = true →
  active_nodes (dispatch p ClickElsewhere) = [] ∧
  active_cards (dispatch p ClickElsewhere) = [].
Proof.
  intros Hd. simpl. rewrite Hd. unfold active_nodes, active_cards. simpl.
  split; by apply filter_all_off.
Qed.

(** A click on a circle or a card, the frame that shows the tooltip, then a
    click elsewhere: nothing stays active. *)
Lemma activate_then_click_outside (p : Page) (e : Event) :
  (∃ i, e = ClickCard i ∨ (e = ClickCircle i ∧ is_Some (nodeElements p !! i))) →
  let p' := run p [e; AnimationFrame; ClickElsewhere] in
  active_nodes p' = [] ∧ active_cards p' = [].
Proof.
  intros (i & [-> | [-> [el Hel]]]); cbv zeta; unfold run;
    cbn [fold_left]; apply outside_click_clears.
  - cbn. apply frame_marks_detailed.
  - cbn. unfold circle_click. rewrite Hel. cbn. apply frame_marks_detailed.
Qed.

(** ** Claim on the active classes *)

(** C1, as the script has it.  The card handler does not touch the graph
    nodes.  On the sample page a click on the card of Alice leaves one
    active card and no active node; after a click on the circle of Bob, it
    leaves the node of Bob active beside the card of Alice.  The circle
    handler on its side does pair node and card. *)
Theorem card_click_leaves_nodes :
  (∀ p i, nodeElements (dispatch p (ClickCard i)) = nodeElements p) ∧
  (let p1 := run (initial_page sample_nodes) [ClickCard 0] in
   card_data_id <$> active_cards p1 = [js "alice"] ∧
   active_nodes p1 = []) ∧
  (let p2 := run (initial_page sample_nodes)
               [ClickCircle 1; AnimationFrame; ClickCard 0] in
   (node_id ∘ ne_datum) <$> active_nodes p2 = [js "bob"] ∧
   card_data_id <$> active_cards p2 = [js "alice"]) ∧
  (let p3 := run (initial_page sample_nodes) [ClickCircle 1] in
   (node_id ∘ ne_datum) <$> active_nodes p3 = [js "bob"] ∧
   card_data_id <$> active_cards p3 = [js "bob"]).
Proof.
  split; [by intros p i |]. repeat split; reflexivity.
Qed.

(** * Further properties of the script *)

(** ** Search matcher *)

(** X1.  The tiers of the score can be read back from it: the score is 100
    exactly when the lower-cased text starts with the query, and at least 50
    exactly when the lower-cased text contains the query as a contiguous
    block. *)
Theorem getMatchScore_reads_back (toLowerCase : jsstring → jsstring)
    (text query : jsstring) :
  (getMatchScore toLowerCase text query = 100%Z ↔
   query `prefix_of` toLowerCase text) ∧
  ((50 ≤ getMatchScore toLowerCase text query)%Z ↔
   substring_of query (toLowerCase text)).
Proof.
  unfold getMatchScore.
  destruct (startsWith _ _) eqn:E1.
  - apply startsWith_prefix in E1. split; split; try done; try lia.
    intros _. by apply prefix_substring.
  - assert (¬ query `prefix_of` toLowerCase text) as Hp.
    { intros H%startsWith_prefix. congruence. }
    destruct (includes _ _) eqn:E2.
    + apply includes_substring in E2. split; split; try done; lia.
    + assert (¬ substring_of query (toLowerCase text)) as Hs.
      { intros H%includes_substring. congruence. }
      destruct (fuzzyMatch _ _ _); split; split; try done; lia.
Qed.

(** The scan from state [k] reaches [n] exactly when the part of the first
    [n] code units of the query that is still to be found occurs, in order,
    in what is left of the text. *)
Lemma fuzzy_loop_reach (query rest : jsstring) (i k n : nat) :
  k ≤ n → n ≤ length query →
  drop k (take n query) `sublist_of` rest ↔
  n ≤ snd (fuzzy_loop query rest i k).
Proof.
  revert i k. induction rest as [|c rest IH]; intros i k Hk Hn; simpl.
  - rewrite sublist_nil_r. split.
    + intros H%(f_equal length). rewrite length_drop, length_take in H.
      simpl in H. lia.
    + intros H. assert (n = k) as -> by lia.
      apply drop_ge. rewrite length_take. lia.
  - case_bool_decide as Hlt.
    + destruct (decide (n = k)) as [-> | Hne].
      { rewrite drop_ge by (rewrite length_take; lia). split.
        - intros _. case_bool_decide.
          + pose proof (fuzzy_loop_index query rest (S i) (S k)). lia.
          + pose proof (fuzzy_loop_index query rest (S i) k). lia.
        - intros _. apply sublist_nil_l. }
      destruct (lookup_lt_is_Some_2 query k Hlt) as [q Hq].
      assert (take n query !! k = Some q) as Hq'.
      { rewrite lookup_take_lt by lia. done. }
      rewrite (drop_S _ _ _ Hq'). case_bool_decide as Heq.
      * assert (q = c) as -> by congruence.
        rewrite <- IH by lia. rewrite sublist_cons_r. split.
        -- intros [H | (l' & [= <-] & H)]; [|done].
           etrans; [apply sublist_cons; reflexivity | exact H].
        -- intros H. right. eauto.
      * rewrite <- IH by lia. rewrite (drop_S _ _ _ Hq'), sublist_cons_r.
        split; [|by left]. intros [H | (l' & [= E _] & _)]; [done|].
        congruence.
    + simpl. assert (n = k) as -> by lia.
      rewrite drop_ge by (rewrite length_take; lia).
      split; [done | intros _; apply sublist_nil_l].
Qed.

(** X2.  The index [queryIndex] at which the scan of [fuzzyMatch] stops is
    the length of the longest beginning of the query that occurs, in order,
    in the text: the first [n] code units of the query are a subsequence of
    the text exactly when [n] is at most that index. *)
Theorem fuzzy_loop_longest_beginning (query text : jsstring) (n : nat) :
  n ≤ length query →
  take n query `sublist_of` text ↔ n ≤ snd (fuzzy_loop query text 0 0).
Proof.
  intros Hn. rewrite <- (fuzzy_loop_reach query text 0 0 n) by lia. done.
Qed.

Lemma fuzzy_loop_longest_beginning_witness :
  2 ≤ length (js "jxc") ∧
  (take 2 (js "jxc") `sublist_of` js "joshua choong" ↔
   2 ≤ snd (fuzzy_loop (js "jxc") (js "joshua choong") 0 0)).
Proof.
  assert (H : 2 ≤ length (js "jxc")) by (simpl; lia).
  split; [exact H |].
  exact (fuzzy_loop_longest_beginning (js "jxc") (js "joshua choong") 2 H).
Defined.

(** X3.  A query longer than the lower-cased text matches in no way: no
    fuzzy match, and score 0. *)
Theorem long_query_never_matches (toLowerCase : jsstring → jsstring)
    (text query : jsstring) :
  (∀ s, toLowerCase (toLowerCase s) = toLowerCase s) →
  length (toLowerCase text) < length query →
  fuzzyMatch toLowerCase text query = false ∧
  getMatchScore toLowerCase text query = 0%Z.
Proof.
  intros Hidem Hlen.
  assert (Hf : fuzzyMatch toLowerCase text query = false).
  { destruct (fuzzyMatch _ _ _) eqn:E; [|done].
    apply fuzzyMatch_sublist, sublist_length in E. lia. }
  split; [done|].
  destruct (getMatchScore_values toLowerCase text query) as [H|H]; [done|].
  assert (0 < getMatchScore toLowerCase text query)%Z as Hpos
    by (destruct H as [H|[H|H]]; rewrite H; lia).
  apply getMatchScore_positive in Hpos; [congruence | done].
Qed.

Lemma long_query_never_matches_witness :
  (∀ s, ascii_toLowerCase (ascii_toLowerCase s) = ascii_toLowerCase s) ∧
  length (ascii_toLowerCase (js "Bob")) < length (js "bobby") ∧
  fuzzyMatch ascii_toLowerCase (js "Bob") (js "bobby") = false ∧
  getMatchScore ascii_toLowerCase (js "Bob") (js "bobby") = 0%Z.
Proof.
  assert (H : length (ascii_toLowerCase (js "Bob")) < length (js "bobby"))
    by (simpl; lia).
  split; [exact ascii_toLowerCase_idem |]. split; [exact H |].
  exact (long_query_never_matches ascii_toLowerCase (js "Bob") (js "bobby")
           ascii_toLowerCase_idem H).
Defined.

(** X4.  Taking code units out of a query that matches leaves a query that
    matches: [fuzzyMatch] is kept by every subsequence of the query, so
    typing more can only narrow the matches. *)
Theorem fuzzyMatch_shorter_query (toLowerCase : jsstring → jsstring)
    (text query query' : jsstring) :
  query' `sublist_of` query →
  fuzzyMatch toLowerCase text query = true →
  fuzzyMatch toLowerCase text query' = true.
Proof.
  intros Hsub H. apply fuzzyMatch_sublist. apply fuzzyMatch_sublist in H.
  by etrans.
Qed.

Lemma fuzzyMatch_shorter_query_witness :
  js "jc" `sublist_of` js "jch" ∧
  fuzzyMatch ascii_toLowerCase (js "Joshua Choong") (js "jch") = true ∧
  fuzzyMatch ascii_toLowerCase (js "Joshua Choong") (js "jc") = true.
Proof.
  assert (H1 : js "jc" `sublist_of` js "jch").
  { simpl. repeat constructor. }
  assert (H2 : fuzzyMatch ascii_toLowerCase (js "Joshua Choong") (js "jch")
               = true) by reflexivity.
  split; [exact H1 |]. split; [exact H2 |].
  exact (fuzzyMatch_shorter_query ascii_toLowerCase (js "Joshua Choong")
           (js "jch") (js "jc") H1 H2).
Defined.

Lemma ascii_lower_unit_not_upper (c : N) :
  ¬ (65 ≤ ascii_lower_unit c ≤ 90)%N.
Proof.
  unfold ascii_lower_unit.
  destruct (65 <=? c)%N eqn:H1, (c <=? 90)%N eqn:H2; simpl;
    try apply N.leb_le in H1; try apply N.leb_le in H2;
    try apply N.leb_gt in H1; try apply N.leb_gt in H2; lia.
Qed.

(** X5.  With ASCII lower-casing, a query that holds a capital letter
    matches no text: the matcher lower-cases the text only, which is why
    the handler lower-cases the query before it calls the matcher. *)
Theorem capital_in_query_never_matches (text query : jsstring) (c : N) :
  c ∈ query → (65 ≤ c ≤ 90)%N →
  fuzzyMatch ascii_toLowerCase text query = false ∧
  getMatchScore ascii_toLowerCase text query = 0%Z.
Proof.
  intros Hc Hupper.
  assert (Hf : fuzzyMatch ascii_toLowerCase text query = false).
  { destruct (fuzzyMatch _ _ _) eqn:E; [|done].
    apply fuzzyMatch_sublist in E.
    assert (c ∈ ascii_toLowerCase text) as Hin.
    { by eapply elem_of_sublist. }
    apply list_elem_of_fmap in Hin as (c' & -> & _).
    by apply ascii_lower_unit_not_upper in Hupper. }
  split; [done|].
  destruct (getMatchScore_values ascii_toLowerCase text query) as [H|H]; [done|].
  assert (0 < getMatchScore ascii_toLowerCase text query)%Z as Hpos
    by (destruct H as [H|[H|H]]; rewrite H; lia).
  apply getMatchScore_positive in Hpos;
    [congruence | apply ascii_toLowerCase_idem].
Qed.

Lemma capital_in_query_never_matches_witness :
  74%N ∈ js "Jos" ∧ (65 ≤ 74 ≤ 90)%N ∧
  getMatchScore ascii_toLowerCase (js "Joshua") (js "Jos") = 0%Z.
Proof.
  assert (H1 : 74%N ∈ js "Jos") by (simpl; left).
  assert (H2 : (65 ≤ 74 ≤ 90)%N) by lia.
  split; [exact H1 |]. split; [exact H2 |].
  exact (proj2 (capital_in_query_never_matches (js "Joshua") (js "Jos") 74
                  H1 H2)).
Defined.

(** ** Tooltip positioner *)

Section TooltipMore.

Local Open Scope Q_scope.

(** X6.  For an anchor that is not above the window, whatever the sizes of
    window and tooltip: the returned top is never less than the padding, and
    either the tooltip ends at least the padding above the bottom of the
    window, or it is the placement to the side, level with the anchor. *)
Theorem positionTooltip_vertical (tooltipNode : option Size)
    (window : Window) (x y : Q) (isDetailed : bool) (nodeRadius : Q) :
  let h := tooltipHeight tooltipNode isDetailed in
  let p := positionTooltip tooltipNode window x y isDetailed nodeRadius in
  0 <= y → 0 <= nodeRadius →
  padding <= pos_top p ∧
  (pos_top p + h <= innerHeight window - padding ∨
   pos_top p == Math_max padding (y - h / 2)).
Proof.
  intros h p Hy Hr. subst p. unfold positionTooltip. fold h.
  destruct (Math_max_spec padding (y - h / 2)) as [[? Hm] | [? Hm]];
    unfold padding, gap in *;
    placement_cases; cbn [pos_left pos_top]; rewrite ?Hm;
    (split; [lra | (left; lra) || (right; lra)]).
Qed.

Lemma positionTooltip_vertical_witness :
  let window := {| innerWidth := 320; innerHeight := 240 |} in
  let p := positionTooltip None window 10 230 true default_nodeRadius in
  padding <= pos_top p ∧
  (pos_top p + 200 <= innerHeight window - padding ∨
   pos_top p == Math_max padding (230 - 200 / 2)).
Proof.
  cbv zeta.
  apply (positionTooltip_vertical None
           {| innerWidth := 320; innerHeight := 240 |}
           10 230 true default_nodeRadius);
    unfold default_nodeRadius; lra.
Defined.

(** X7.  The tooltip keeps clear of the anchor: in every case one edge of
    its rectangle is [nodeRadius + gap] away from the anchor, above it, below
    it, right of it or left of it; so for a radius that is not negative the
    rectangle never holds the anchor point. *)
Theorem positionTooltip_clear_of_anchor (tooltipNode : option Size)
    (window : Window) (x y : Q) (isDetailed : bool) (nodeRadius : Q) :
  let w := tooltipWidth tooltipNode isDetailed in
  let h := tooltipHeight tooltipNode isDetailed in
  let p := positionTooltip tooltipNode window x y isDetailed nodeRadius in
  (pos_top p + h == y - nodeRadius - gap ∨
   pos_top p == y + nodeRadius + gap ∨
   pos_left p == x + nodeRadius + gap ∨
   pos_left p + w == x - nodeRadius - gap) ∧
  (0 <= nodeRadius →
   ¬ (pos_left p <= x <= pos_left p + w ∧ pos_top p <= y <= pos_top p + h)).
Proof.
  intros w h p.
  assert (Hedge : pos_top p + h == y - nodeRadius - gap ∨
                  pos_top p == y + nodeRadius + gap ∨
                  pos_left p == x + nodeRadius + gap ∨
                  pos_left p + w == x - nodeRadius - gap).
  { subst p. unfold positionTooltip. fold w h.
    placement_cases; cbn [pos_left pos_top].
    - right. right. right. lra.
    - right. right. left. lra.
    - right. left. lra.
    - right. right. right. lra.
    - right. right. left. lra.
    - left. lra. }
  split; [exact Hedge |]. intros Hr (Hx & Hy). unfold gap in Hedge.
  destruct Hedge as [H | [H | [H | H]]]; lra.
Qed.

(** X8.  A second window in which the rectangle stays inside the padding:
    one that is at least [2 * w + 2 * (nodeRadius + gap + padding)] wide and
    at least [h + h / 2 + nodeRadius + gap + 2 * padding] high, for an anchor
    in the window.  Here the placement to the side may be taken, and its
    flip to the left has the room it needs. *)
Theorem positionTooltip_within_padding_wide (tooltipNode : option Size)
    (window : Window) (x y : Q) (isDetailed : bool) (nodeRadius : Q) :
  let w := tooltipWidth tooltipNode isDetailed in
  let h := tooltipHeight tooltipNode isDetailed in
  0 <= x <= innerWidth window →
  0 <= y <= innerHeight window →
  0 <= nodeRadius → 0 <= w → 0 <= h →
  2 * w + 2 * (nodeRadius + gap + padding) <= innerWidth window →
  h + h / 2 + nodeRadius + gap + 2 * padding <= innerHeight window →
  within_padding window w h
    (positionTooltip tooltipNode window x y isDetailed nodeRadius).
Proof.
  intros w h Hx Hy Hr Hw0 Hh0 Hw Hh.
  destruct (clamp_left_bounds window x w) as [Hl1 Hl2].
  unfold clamp_left in Hl1, Hl2.
  assert (Hhalf : h == 2 * (h / 2)) by field.
  unfold within_padding, positionTooltip. fold w h.
  destruct (Math_max_spec padding (y - h / 2)) as [[? Hm] | [? Hm]];
    unfold padding, gap in *;
    (specialize (Hl2 ltac:(lra)));
    placement_cases; cbn [pos_left pos_top]; rewrite ?Hm;
    repeat split; lra.
Qed.

Lemma positionTooltip_within_padding_wide_witness :
  let window := {| innerWidth := 640; innerHeight := 360 |} in
  let el := {| offsetWidth := 280; offsetHeight := 200 |} in
  within_padding window 280 200
    (positionTooltip (Some el) window 600 180 true default_nodeRadius).
Proof.
  cbv zeta.
  apply (positionTooltip_within_padding_wide
           (Some {| offsetWidth := 280; offsetHeight := 200 |})
           {| innerWidth := 640; innerHeight := 360 |}
           600 180 true default_nodeRadius);
    repeat split; vm_compute; discriminate.
Defined.

(** The witness above is a placement to the side, flipped to the left. *)
Example positionTooltip_side_left_sample :
  let window := {| innerWidth := 640; innerHeight := 360 |} in
  let el := {| offsetWidth := 280; offsetHeight := 200 |} in
  let p := positionTooltip (Some el) window 600 180 true default_nodeRadius in
  pos_left p == 296 ∧ pos_top p == 80.
Proof. split; reflexivity. Qed.

End TooltipMore.

(** ** Relationship builder *)

Lemma map_push_concat (key : jsstring) (node : Node) (m : YearGroups) :
  map_has key m = true →
  concat (map_push key node m).*2 ≡ₚ concat m.*2 ++ [node].
Proof.
  induction m as [|[k v] m IH]; simpl; [done|].
  case_bool_decide as Hk; simpl.
  - intros _. rewrite <- !app_assoc. f_equiv. apply Permutation_app_comm.
  - intros H. rewrite IH by done. by rewrite app_assoc.
Qed.

Lemma yearGroups_step_concat (m : YearGroups) (node : Node) :
  concat (yearGroups_step m node).*2 ≡ₚ concat m.*2 ++ [node].
Proof.
  destruct (map_has (cohort_key node) m) eqn:E.
  - unfold yearGroups_step. rewrite E. simpl. by apply map_push_concat.
  - rewrite yearGroups_step_new.
    + by rewrite fmap_app, concat_app; simpl.
    + intros H%map_has_elem. congruence.
Qed.

Lemma build_yearGroups_concat (nodes : list Node) :
  concat (build_yearGroups nodes).*2 ≡ₚ nodes.
Proof.
  induction nodes as [|node nodes IH] using rev_ind; [done|].
  by rewrite build_yearGroups_snoc, yearGroups_step_concat, IH.
Qed.

(** X9.  The year groups hold every node once: put end to end, the groups
    are a rearrangement of the node list, so no node is lost and none is in
    two groups, and the sizes of the groups add up to the number of
    nodes. *)
Theorem yearGroups_hold_every_node_once (nodes : list Node) :
  concat (build_yearGroups nodes).*2 ≡ₚ nodes ∧
  sum_list (length <$> (build_yearGroups nodes).*2) = length nodes.
Proof.
  split; [apply build_yearGroups_concat|].
  rewrite <- (Permutation_length (build_yearGroups_concat nodes)).
  generalize ((build_yearGroups nodes).*2). intros gs.
  induction gs as [|g gs IH]; simpl; [done|].
  rewrite length_app. f_equal. exact IH.
Qed.

Lemma first_occurrences_elem (l : list jsstring) (k : jsstring) :
  k ∈ first_occurrences l ↔ k ∈ l.
Proof.
  induction l as [|k' l IH]; simpl; [done|].
  rewrite !elem_of_cons, list_elem_of_filter, IH.
  destruct (decide (k = k')); tauto.
Qed.

Lemma first_occurrences_snoc (l : list jsstring) (k : jsstring) :
  first_occurrences (l ++ [k]) =
  if decide (k ∈ l) then first_occurrences l else first_occurrences l ++ [k].
Proof.
  induction l as [|k' l IH]; cbn [app first_occurrences].
  - case_decide as H; [by apply elem_of_nil in H | done].
  - rewrite IH. destruct (decide (k = k')) as [-> | Hne].
    + rewrite (decide_True (P := k' ∈ k' :: l)) by left.
      case_decide; [done|].
      rewrite filter_app, filter_cons_False, filter_nil, app_nil_r; tauto.
    + destruct (decide (k ∈ l)) as [Hin | Hnin].
      * rewrite (decide_True (P := k ∈ k' :: l)) by (by right). done.
      * rewrite (decide_False (P := k ∈ k' :: l))
          by (by intros [?|?]%elem_of_cons).
        by rewrite filter_app, filter_cons_True, filter_nil.
Qed.

Lemma map_push_keys (key : jsstring) (node : Node) (m : YearGroups) :
  (map_push key node m).*1 = m.*1.
Proof.
  induction m as [|[k v] m IH]; simpl; [done|].
  case_bool_decide; simpl; [done | f_equal; exact IH].
Qed.

(** X10.  The year groups stand in the order in which their cohorts first
    occur in the node list (the order in which the links of the groups are
    then pushed). *)
Theorem yearGroups_order (nodes : list Node) :
  (build_yearGroups nodes).*1 = first_occurrences (cohort_key <$> nodes).
Proof.
  induction nodes as [|node nodes IH] using rev_ind; [done|].
  rewrite build_yearGroups_snoc, fmap_app.
  change (cohort_key <$> [node]) with [cohort_key node].
  rewrite first_occurrences_snoc.
  destruct (decide (cohort_key node ∈ cohort_key <$> nodes)) as [Hin | Hnin].
  - rewrite <- first_occurrences_elem, <- IH in Hin.
    apply map_has_elem in Hin.
    unfold yearGroups_step. rewrite Hin. simpl.
    by rewrite map_push_keys.
  - rewrite <- first_occurrences_elem, <- IH in Hnin.
    rewrite yearGroups_step_new by done. by rewrite fmap_app, IH.
Qed.

Lemma group_edges_length (g : list Node) :
  length (group_edges g) = links_of_size (length g).
Proof.
  destruct g as [|a [|b [|c g]]]; try done.
  apply group_edges_ring. simpl. lia.
Qed.

Lemma links_of_size_le (N : nat) : links_of_size N ≤ N.
Proof. destruct N as [|[|[|N]]]; simpl; lia. Qed.

Lemma concat_group_edges_length (gs : list (list Node)) :
  length (concat (group_edges <$> gs)) = sum_list (links_of_size ∘ length <$> gs).
Proof.
  induction gs as [|g gs IH]; csimpl; [done|].
  by rewrite length_app, IH, group_edges_length.
Qed.

Lemma sum_links_le (gs : list (list Node)) :
  sum_list (links_of_size ∘ length <$> gs) ≤ length (concat gs).
Proof.
  induction gs as [|g gs IH]; csimpl; [done|].
  pose proof (links_of_size_le (length g)). rewrite length_app. lia.
Qed.

Lemma sum_links_rings (gs : list (list Node)) :
  (∀ g, g ∈ gs → 3 ≤ length g) →
  sum_list (links_of_size ∘ length <$> gs) = length (concat gs).
Proof.
  induction gs as [|g gs IH]; csimpl; intros Hgs; [done|].
  rewrite length_app, IH by (intros g' Hg'; apply Hgs; by right).
  assert (3 ≤ length g) as H3 by (apply Hgs; left).
  destruct (length g) as [|[|[|N]]]; simpl; lia.
Qed.

(** X11.  The number of links is the sum over the groups of 0, 1 or the
    size of the group; it never exceeds the number of nodes, and equals it
    when every cohort has at least three nodes. *)
Theorem build_links_count (nodes : list Node) :
  let groups := (build_yearGroups nodes).*2 in
  length (build_links nodes) = sum_list (links_of_size ∘ length <$> groups) ∧
  length (build_links nodes) ≤ length nodes ∧
  ((∀ g, g ∈ groups → 3 ≤ length g) →
   length (build_links nodes) = length nodes).
Proof.
  intros groups.
  assert (Hcount : length (build_links nodes)
                   = sum_list (links_of_size ∘ length <$> groups)).
  { by rewrite build_links_concat, concat_group_edges_length. }
  assert (Hnodes : length (concat groups) = length nodes).
  { apply Permutation_length, build_yearGroups_concat. }
  split; [done|]. rewrite Hcount, <- Hnodes. split.
  - apply sum_links_le.
  - apply sum_links_rings.
Qed.

(** X12.  The links of a group of three or more nodes, read as a ring: their
    sources are the nodes of the group in order, their targets the same
    nodes moved up by one place, the first node last.  Each node of the
    group is thus the source of one link and the target of one link. *)
Theorem group_edges_ring_shape (g : list Node) :
  3 ≤ length g →
  source <$> group_edges g = node_id <$> g ∧
  target <$> group_edges g = node_id <$> (drop 1 g ++ take 1 g).
Proof.
  intros H3. destruct (group_edges_ring g H3) as [Hlen Hlinks].
  assert (Hnext : ∀ i, i < length g →
            (drop 1 g ++ take 1 g) !! i = g !! ((i + 1) mod length g)).
  { intros i Hi. destruct (decide (i + 1 < length g)) as [Hlt | Hge].
    - rewrite Nat.mod_small by done.
      rewrite lookup_app_l by (rewrite length_drop; lia).
      rewrite lookup_drop. f_equal. lia.
    - assert (i + 1 = length g) as -> by lia.
      rewrite Nat.Div0.mod_same.
      rewrite lookup_app_r by (rewrite length_drop; lia).
      rewrite length_drop.
      replace (i - (length g - 1)) with 0 by lia.
      by destruct g. }
  split; apply list_eq; intros i; rewrite !list_lookup_fmap.
  - destruct (g !! i) as [a|] eqn:Ha.
    + destruct (lookup_lt_is_Some_2 g ((i + 1) mod length g)) as [b Hb].
      { apply Nat.mod_upper_bound. lia. }
      by rewrite (Hlinks i a b Ha Hb).
    + apply lookup_ge_None in Ha.
      rewrite (proj2 (lookup_ge_None _ _)) by lia. done.
  - destruct (decide (i < length g)) as [Hi | Hi].
    + rewrite Hnext by done.
      destruct (lookup_lt_is_Some_2 g i Hi) as [a Ha].
      destruct (lookup_lt_is_Some_2 g ((i + 1) mod length g)) as [b Hb].
      { apply Nat.mod_upper_bound. lia. }
      by rewrite (Hlinks i a b Ha Hb), Hb.
    + rewrite (proj2 (lookup_ge_None (group_edges g) i)) by lia.
      rewrite (proj2 (lookup_ge_None (drop 1 g ++ take 1 g) i)); [done|].
      rewrite length_app, length_drop, length_take. lia.
Qed.

Lemma group_edges_ring_shape_witness :
  3 ≤ length sample_nodes ∧
  source <$> group_edges sample_nodes = [js "alice"; js "bob"; js "cara"] ∧
  target <$> group_edges sample_nodes = [js "bob"; js "cara"; js "alice"].
Proof.
  assert (H : 3 ≤ length sample_nodes) by (simpl; lia).
  split; [exact H |].
  exact (group_edges_ring_shape sample_nodes H).
Defined.

(** The two ends of a link of a group stand at different places of the
    group. *)
Lemma group_edges_ends (g : list Node) (e : Link) :
  e ∈ group_edges g →
  ∃ i j a b, i ≠ j ∧ g !! i = Some a ∧ g !! j = Some b ∧ e = make_link a b.
Proof.
  intros He.
  destruct (decide (length g ≤ 2)) as [Hsmall | Hbig].
  - destruct g as [|a [|b [|c g]]]; simpl in Hsmall; try lia.
    + by apply elem_of_nil in He.
    + by apply elem_of_nil in He.
    + apply list_elem_of_singleton in He as ->.
      by exists 0, 1, a, b.
  - destruct (group_edges_ring g) as [Hlen Hlinks]; [lia|].
    apply list_elem_of_lookup in He as [i Hi].
    assert (i < length g) as Hlt.
    { rewrite <- Hlen. by eapply lookup_lt_Some. }
    destruct (lookup_lt_is_Some_2 g i Hlt) as [a Ha].
    destruct (lookup_lt_is_Some_2 g ((i + 1) mod length g)) as [b Hb].
    { apply Nat.mod_upper_bound. lia. }
    exists i, ((i + 1) mod length g), a, b.
    rewrite (Hlinks i a b Ha Hb) in Hi.
    repeat split; [| done | done | congruence].
    destruct (decide (i + 1 < length g)) as [Hs | Hs].
    + rewrite Nat.mod_small by done. lia.
    + assert (i + 1 = length g) as -> by lia.
      rewrite Nat.Div0.mod_same. lia.
Qed.

(** X13.  When the identifiers of the nodes are all different, no link joins
    a node to itself: source and target of every link differ. *)
Theorem build_links_no_self_link (nodes : list Node) (e : Link) :
  NoDup (node_id <$> nodes) →
  e ∈ build_links nodes →
  source e ≠ target e.
Proof.
  intros Hids He. rewrite build_links_concat in He.
  apply list_elem_of_In, in_concat in He as (es & Hes & He).
  apply list_elem_of_In in Hes, He.
  apply list_elem_of_fmap in Hes as (g & -> & Hg).
  apply list_elem_of_fmap in Hg as ([k g'] & Hk & Hkg). simpl in Hk. subst g'.
  destruct (build_yearGroups_by_cohort nodes) as (_ & Hgroups & _).
  destruct (Hgroups k g Hkg) as [_ Hfilter].
  assert (Hg : NoDup (node_id <$> g)).
  { eapply sublist_NoDup; [exact Hids|].
    apply fmap_sublist. rewrite Hfilter at 1. apply sublist_filter. }
  destruct (group_edges_ends g e He) as (i & j & a & b & Hij & Ha & Hb & ->).
  simpl. intros Heq. apply Hij.
  eapply (NoDup_lookup (node_id <$> g)); [done | |].
  - rewrite list_lookup_fmap, Ha. done.
  - rewrite list_lookup_fmap, Hb. simpl. by rewrite Heq.
Qed.

Lemma build_links_no_self_link_witness :
  NoDup (node_id <$> sample_nodes) ∧
  (∀ e, e ∈ build_links sample_nodes → source e ≠ target e).
Proof.
  assert (H : NoDup (node_id <$> sample_nodes)).
  { apply (bool_decide_unpack _). vm_compute. exact I. }
  split; [exact H |].
  exact (λ e, build_links_no_self_link sample_nodes e H).
Defined.

(** ** Click and hover handlers along a run of events *)

Lemma fmap_alter_same {A B} (g : A → B) (f : A → A) (i : nat) (l : list A) :
  (∀ x, g (f x) = g x) → g <$> alter f i l = g <$> l.
Proof.
  intros Hg. revert i. induction l as [|x l IH]; intros [|i]; csimpl;
    rewrite ?Hg, ?IH; done.
Qed.

Lemma fmap_fmap_same {A B} (g : A → B) (f : A → A) (l : list A) :
  (∀ x, g (f x) = g x) → g <$> (f <$> l) = g <$> l.
Proof.
  intros Hg. induction l as [|x l IH]; csimpl; [done|].
  by rewrite Hg, IH.
Qed.

Lemma filter_fmap_none {A B} (P : A → Prop) `{∀ x, Decision (P x)}
    (f : B → A) (l : list B) :
  (∀ y, ¬ P (f y)) → filter P (f <$> l) = [].
Proof.
  intros Hf. apply elem_of_nil_inv.
  intros y [Hy (z & -> & _)%list_elem_of_fmap]%list_elem_of_filter.
  by apply (Hf z).
Qed.

Lemma filter_alter_le {A} (P : A → Prop) `{∀ x, Decision (P x)}
    (on off : A → A) (l : list A) (i : nat) :
  (∀ y, ¬ P (off y)) →
  length (filter P (alter on i (off <$> l))) ≤ 1.
Proof.
  intros Hoff. revert i. induction l as [|z l IH]; intros [|i]; csimpl.
  - cbn. lia.
  - cbn. lia.
  - rewrite filter_cons. rewrite (filter_all_off P off l Hoff).
    case_decide; simpl; lia.
  - rewrite filter_cons_False by done. apply IH.
Qed.

Lemma dispatch_at_most_one (p : Page) (e : Event) :
  at_most_one_active p → at_most_one_active (dispatch p e).
Proof.
  intros [Hn Hc]. unfold at_most_one_active, active_nodes, active_cards in *.
  destruct e as [i|i|i| |i|i|]; simpl.
  - unfold circle_click. destruct (nodeElements p !! i); [|done].
    cbn [nodeElements cardElements showDetailedTooltip]. split.
    + by apply filter_alter_le.
    + destruct (select_card _ _) as [j|].
      * by apply filter_alter_le.
      * rewrite filter_all_off by done. simpl. lia.
  - done.
  - cbn [nodeElements cardElements showDetailedTooltip card_click].
    split; [done | by apply filter_alter_le].
  - destruct (tt_detailed (tooltip p)); [|done]. simpl.
    rewrite !filter_all_off by done. simpl. lia.
  - unfold mouseover. by destruct (tt_detailed (tooltip p)).
  - unfold mouseout. by destruct (tt_detailed (tooltip p)).
  - done.
Qed.

(** X14.  Whatever the user does, at most one graph node and at most one
    sidebar card are active: the bound holds on the page as loaded and
    after every run of clicks, hovers and frames. *)
Theorem selection_at_most_one (nodes : list Node) (events : list Event) :
  at_most_one_active (run (initial_page nodes) events).
Proof.
  unfold run.
  assert (H0 : at_most_one_active (initial_page nodes)).
  { unfold at_most_one_active, active_nodes, active_cards. simpl.
    rewrite !filter_fmap_none by done. simpl. lia. }
  revert H0. generalize (initial_page nodes).
  induction events as [|e events IH]; intros p Hp; simpl; [done|].
  by apply IH, dispatch_at_most_one.
Qed.

Lemma run_callbacks_visible (callbacks : list FrameCallback) (t : Tooltip) :
  (tt_detailed t = true → tt_visible t = true) →
  tt_detailed (fold_left run_callback callbacks t) = true →
  tt_visible (fold_left run_callback callbacks t) = true.
Proof.
  revert t. induction callbacks as [|cb callbacks IH]; intros t Ht; simpl;
    [done|].
  apply IH. by destruct cb.
Qed.

Lemma dispatch_detailed_visible (p : Page) (e : Event) :
  (tt_detailed (tooltip p) = true → tt_visible (tooltip p) = true) →
  tt_detailed (tooltip (dispatch p e)) = true →
  tt_visible (tooltip (dispatch p e)) = true.
Proof.
  intros Hp. destruct e as [i|i|i| |i|i|]; simpl; try done.
  - unfold circle_click. destruct (nodeElements p !! i); simpl; done.
  - destruct (tt_detailed (tooltip p)) eqn:E; simpl; [done|]. by rewrite E.
  - unfold mouseover.
    destruct (tt_detailed (tooltip p)) eqn:E; simpl; rewrite E; done.
  - unfold mouseout.
    destruct (tt_detailed (tooltip p)) eqn:E; simpl; rewrite ?E; done.
  - by apply run_callbacks_visible.
Qed.

(** X15.  A tooltip marked detailed is always shown: from the page as
    loaded, no run of events leaves the tooltip with the class [detailed]
    and without the class [visible]. *)
Theorem detailed_tooltip_is_visible (nodes : list Node) (events : list Event) :
  let t := tooltip (run (initial_page nodes) events) in
  tt_detailed t = true → tt_visible t = true.
Proof.
  cbv zeta. unfold run.
  assert (H0 : tt_detailed (tooltip (initial_page nodes)) = true →
               tt_visible (tooltip (initial_page nodes)) = true) by done.
  revert H0. generalize (initial_page nodes).
  induction events as [|e events IH]; intros p Hp; simpl; [done|].
  apply IH. by apply dispatch_detailed_visible.
Qed.

Lemma detailed_tooltip_is_visible_witness :
  let t := tooltip (run (initial_page sample_nodes)
                      [MouseOver 0; ClickCircle 0; AnimationFrame; MouseOut 0]) in
  tt_detailed t = true ∧ tt_visible t = true.
Proof.
  cbv zeta.
  assert (H : tt_detailed (tooltip (run (initial_page sample_nodes)
             [MouseOver 0; ClickCircle 0; AnimationFrame; MouseOut 0])) = true)
    by reflexivity.
  split; [exact H |].
  exact (detailed_tooltip_is_visible sample_nodes
           [MouseOver 0; ClickCircle 0; AnimationFrame; MouseOut 0] H).
Defined.

Lemma run_callbacks_detailed (callbacks : list FrameCallback) (t : Tooltip) :
  tt_detailed t = true →
  tt_detailed (fold_left run_callback callbacks t) = true.
Proof.
  revert t. induction callbacks as [|cb callbacks IH]; intros t Ht; simpl;
    [done|].
  apply IH. by destruct cb.
Qed.

Lemma dispatch_keeps_detailed (p : Page) (e : Event) :
  e ≠ ClickElsewhere →
  tt_detailed (tooltip p) = true →
  tt_detailed (tooltip (dispatch p e)) = true.
Proof.
  intros He Hp. destruct e as [i|i|i| |i|i|]; simpl; try done.
  - unfold circle_click. destruct (nodeElements p !! i); simpl; done.
  - unfold mouseover. by rewrite Hp.
  - unfold mouseout. by rewrite Hp.
  - by apply run_callbacks_detailed.
Qed.

(** X16.  Only a click away from nodes and cards takes the detailed tooltip
    down: once the tooltip is detailed it stays detailed through every run
    of events that holds no such click, hovers and further clicks on nodes
    and cards included. *)
Theorem detailed_until_click_elsewhere (p : Page) (events : list Event) :
  ClickElsewhere ∉ events →
  tt_detailed (tooltip p) = true →
  tt_detailed (tooltip (run p events)) = true.
Proof.
  unfold run. revert p.
  induction events as [|e events IH]; intros p Hev Hp; simpl; [done|].
  apply not_elem_of_cons in Hev as [He Hev].
  apply IH; [done|]. by apply dispatch_keeps_detailed.
Qed.

Lemma detailed_until_click_elsewhere_witness :
  let p := run (initial_page sample_nodes) [ClickCircle 0; AnimationFrame] in
  let events := [MouseOut 0; MouseOver 1; ClickCard 2; ClickLabel 1;
                 AnimationFrame] in
  (ClickElsewhere ∉ events) ∧
  tt_detailed (tooltip p) = true ∧
  tt_detailed (tooltip (run p events)) = true.
Proof.
  cbv zeta.
  assert (H1 : ClickElsewhere ∉ [MouseOut 0; MouseOver 1; ClickCard 2;
                                 ClickLabel 1; AnimationFrame]).
  { intros H. repeat (apply elem_of_cons in H as [H | H]; [discriminate H|]).
    by apply elem_of_nil in H. }
  assert (H2 : tt_detailed (tooltip (run (initial_page sample_nodes)
                 [ClickCircle 0; AnimationFrame])) = true) by reflexivity.
  split; [exact H1 |]. split; [exact H2 |].
  exact (detailed_until_click_elsewhere _ _ H1 H2).
Defined.

Lemma dispatch_page_of (nodes : list Node) (p : Page) (e : Event) :
  page_of nodes p → page_of nodes (dispatch p e).
Proof.
  intros [Hn Hc]. unfold page_of.
  destruct e as [i|i|i| |i|i|]; simpl; try done.
  - unfold circle_click. destruct (nodeElements p !! i); [|done].
    cbn [nodeElements cardElements showDetailedTooltip].
    rewrite fmap_alter_same, fmap_fmap_same by done. split; [done|].
    destruct (select_card _ _);
      rewrite ?fmap_alter_same, fmap_fmap_same by done; done.
  - by rewrite fmap_alter_same, fmap_fmap_same by done.
  - destruct (tt_detailed (tooltip p)); [|done]. simpl.
    by rewrite !fmap_fmap_same by done.
  - unfold mouseover. by destruct (tt_detailed (tooltip p)).
  - unfold mouseout. by destruct (tt_detailed (tooltip p)).
Qed.

Lemma run_page_of (nodes : list Node) (events : list Event) :
  page_of nodes (run (initial_page nodes) events).
Proof.
  unfold run.
  assert (H0 : page_of nodes (initial_page nodes)).
  { unfold page_of. simpl. split.
    - rewrite <- list_fmap_compose. apply list_fmap_id.
    - by rewrite <- list_fmap_compose. }
  revert H0. generalize (initial_page nodes).
  induction events as [|e events IH]; intros p Hp; simpl; [done|].
  by apply IH, dispatch_page_of.
Qed.

Lemma run_snoc (p : Page) (events : list Event) (e : Event) :
  run p (events ++ [e]) = dispatch (run p events) e.
Proof. unfold run. by rewrite fold_left_app. Qed.

(** X17.  On a page whose identifiers are all plain (none holds a double
    quote, a backslash, a line break, a null or a surrogate): whatever
    happened before, a click on the circle of a node leaves that node as the
    only active node and, as the only active card, a card with the
    identifier of that node. *)
Theorem circle_click_pairs_node_and_card (nodes : list Node)
    (events : list Event) (i : nat) (d : Node) :
  Forall (λ n, selector_plain (node_id n)) nodes →
  nodes !! i = Some d →
  let p := run (initial_page nodes) (events ++ [ClickCircle i]) in
  ∃ el c,
    active_nodes p = [el] ∧ active_cards p = [c] ∧
    nodeElements p !! i = Some el ∧
    ne_datum el = d ∧ card_data_id c = node_id d.
Proof.
  intros _ Hd. cbv zeta. rewrite run_snoc.
  destruct (run_page_of nodes events) as [Hn Hc].
  set (p := run (initial_page nodes) events) in *.
  assert (Hel : ∃ el, nodeElements p !! i = Some el ∧ ne_datum el = d).
  { rewrite <- Hn, list_lookup_fmap in Hd.
    destruct (nodeElements p !! i) as [el|]; [|done].
    exists el. split; [done|]. by injection Hd. }
  destruct Hel as (el & Hel & Hdatum).
  assert (Hcard : ∃ c, c ∈ cardElements p ∧ card_data_id c = node_id d).
  { assert (node_id d ∈ card_data_id <$> cardElements p) as Hin.
    { rewrite Hc. apply list_elem_of_fmap_2.
      by eapply list_elem_of_lookup_2. }
    apply list_elem_of_fmap in Hin as (c & Hid & Hin). by exists c. }
  simpl. unfold circle_click. rewrite Hel.
  unfold active_nodes, active_cards.
  cbn [nodeElements cardElements showDetailedTooltip].
  assert (Hsel : is_Some (select_card (node_id (ne_datum el))
                            (card_set_active false <$> cardElements p))).
  { apply select_card_is_Some. destruct Hcard as (c & Hin & Hid).
    exists (card_set_active false c). split; [|by rewrite Hdatum].
    by apply list_elem_of_fmap_2. }
  destruct Hsel as [j Hj]. rewrite Hj.
  apply select_card_Some in Hj as (c & Hcj & Hid).
  apply list_lookup_fmap_Some in Hcj as (c0 & -> & Hc0).
  exists (node_set_active true (node_set_active false el)),
         (card_set_active true (card_set_active false c0)).
  split; [by apply filter_alter_one|].
  split; [by apply filter_alter_one|].
  split.
  { rewrite list_lookup_alter_eq, list_lookup_fmap, Hel. done. }
  split; [done|]. simpl in *. by rewrite <- Hdatum.
Qed.

Lemma circle_click_pairs_node_and_card_witness :
  let d := make_node ascii_toLowerCase 1 (person "Bob" (Some "2020"%string)) in
  let p := run (initial_page sample_nodes)
             ([ClickCard 0; MouseOver 2] ++ [ClickCircle 1]) in
  Forall (λ n, selector_plain (node_id n)) sample_nodes ∧
  sample_nodes !! 1 = Some d ∧
  ∃ el c,
    active_nodes p = [el] ∧ active_cards p = [c] ∧
    nodeElements p !! 1 = Some el ∧
    ne_datum el = d ∧ card_data_id c = node_id d.
Proof.
  cbv zeta.
  assert (Hplain : Forall (λ n, selector_plain (node_id n)) sample_nodes)
    by (repeat constructor).
  assert (H : sample_nodes !! 1 = Some (make_node ascii_toLowerCase 1
                (person "Bob" (Some "2020"%string)))) by reflexivity.
  split; [exact Hplain |]. split; [exact H |].
  exact (circle_click_pairs_node_and_card sample_nodes
           [ClickCard 0; MouseOver 2] 1 _ Hplain H).
Defined.

(** X18.  A click on a card or on the circle of a node whose identifier is
    plain (it holds no double quote, backslash, line break, null or
    surrogate), the frame in which the tooltip is shown, then a click away
    from nodes and cards: whatever happened before, no node and no card is
    active afterwards and the tooltip is hidden and no longer detailed. *)
Theorem click_frame_click_elsewhere_clears (p : Page) (e : Event) :
  activates p e →
  let p' := run p [e; AnimationFrame; ClickElsewhere] in
  active_nodes p' = [] ∧ active_cards p' = [] ∧
  tt_visible (tooltip p') = false ∧ tt_detailed (tooltip p') = false.
Proof.
  intros He. cbv zeta. unfold run. cbn [fold_left].
  set (q := dispatch (dispatch p e) AnimationFrame).
  assert (Hq : tt_detailed (tooltip q) = true).
  { subst q. destruct e as [i|i|i| |i|i|]; try done; simpl in He |- *.
    - unfold circle_click. destruct He as (el & -> & _). cbn.
      apply frame_marks_detailed.
    - cbn. apply frame_marks_detailed. }
  clearbody q. simpl. rewrite Hq. unfold active_nodes, active_cards. simpl.
  by rewrite !filter_all_off by done.
Qed.

Lemma click_frame_click_elsewhere_clears_witness :
  let p := run (initial_page sample_nodes) [ClickCard 0; AnimationFrame] in
  let p' := run p [ClickCircle 1; AnimationFrame; ClickElsewhere] in
  activates p (ClickCircle 1) ∧
  length (active_cards p) = 1 ∧
  active_nodes p' = [] ∧ active_cards p' = [] ∧
  tt_visible (tooltip p') = false ∧ tt_detailed (tooltip p') = false.
Proof.
  cbv zeta.
  assert (H : activates (run (initial_page sample_nodes)
                           [ClickCard 0; AnimationFrame]) (ClickCircle 1)).
  { eexists. split; [reflexivity |]. repeat constructor. }
  split; [exact H |]. split; [reflexivity |].
  exact (click_frame_click_elsewhere_clears _ (ClickCircle 1) H).
Defined.

(** X19.  The class [detailed] is set in the animation frame, not in the
    click.  While the tooltip is not detailed, a click away from nodes and
    cards changes nothing: after a click on a circle or a card, such a click
    that comes before the frame leaves the selection as the first click
    made it. *)
Theorem click_elsewhere_before_frame (p : Page) (e : Event) :
  tt_detailed (tooltip p) = false →
  e ≠ AnimationFrame →
  run p [e; ClickElsewhere] = dispatch p e.
Proof.
  intros Hp He. unfold run. cbn [fold_left].
  assert (Hq : tt_detailed (tooltip (dispatch p e)) = false).
  { destruct e as [i|i|i| |i|i|]; simpl; try done.
    - unfold circle_click. destruct (nodeElements p !! i); simpl; done.
    - by rewrite Hp.
    - unfold mouseover. by rewrite Hp.
    - unfold mouseout. by rewrite Hp. }
  revert Hq. generalize (dispatch p e). intros q Hq.
  simpl. by rewrite Hq.
Qed.

Lemma click_elsewhere_before_frame_witness :
  let p := initial_page sample_nodes in
  tt_detailed (tooltip p) = false ∧
  ClickCircle 1 ≠ AnimationFrame ∧
  (node_id ∘ ne_datum) <$> active_nodes (run p [ClickCircle 1; ClickElsewhere])
    = [js "bob"].
Proof.
  cbv zeta.
  assert (H1 : tt_detailed (tooltip (initial_page sample_nodes)) = false)
    by reflexivity.
  assert (H2 : ClickCircle 1 ≠ AnimationFrame) by discriminate.
  split; [exact H1 |]. split; [exact H2 |].
  rewrite (click_elsewhere_before_frame (initial_page sample_nodes)
             (ClickCircle 1) H1 H2).
  reflexivity.
Defined.

(** ** Search input handler, further *)

Section SearchMore.

Variable toLowerCase : jsstring → jsstring.

Lemma search_query_cards (query : jsstring) (p : Page) :
  query ≠ [] →
  cardElements (search_query toLowerCase query p).1 =
  classify_card toLowerCase query <$> cardElements p.
Proof.
  intros Hq. destruct query as [|q query]; [done|]. simpl.
  apply (card_loop_state toLowerCase (q :: query) (cardElements p)).
Qed.

Lemma search_query_nodes (query : jsstring) (p : Page) :
  query ≠ [] →
  nodeElements (search_query toLowerCase query p).1 =
  search_node toLowerCase query <$> nodeElements p.
Proof. intros Hq. by destruct query. Qed.

Lemma search_query_rest (query : jsstring) (p : Page) :
  tooltip (search_query toLowerCase query p).1 = tooltip p ∧
  frames (search_query toLowerCase query p).1 = frames p.
Proof. by destruct query. Qed.

Lemma trimStart_all_space (s : jsstring) :
  Forall (λ c, is_space c = true) s → trimStart s = [].
Proof.
  induction 1 as [|c s Hc _ IH]; simpl; [done|]. by rewrite Hc.
Qed.

Lemma trim_all_space (s : jsstring) :
  Forall (λ c, is_space c = true) s → trim s = [].
Proof.
  intros H. unfold trim. by rewrite (trimStart_all_space s H).
Qed.

Lemma classify_card_match (query : jsstring) (card : CardElement) :
  toLowerCase [] = [] → query ≠ [] →
  card_search_match (classify_card toLowerCase query card) =
  bool_decide (0 < effective_score toLowerCase query card)%Z.
Proof.
  intros Hnil Hq. unfold classify_card. simpl.
  rewrite card_score_effective by done.
  destruct (Z.ltb_spec 0 (effective_score toLowerCase query card)).
  - by rewrite bool_decide_eq_true_2.
  - rewrite bool_decide_eq_false_2; [done | lia].
Qed.

End SearchMore.

(** X20.  A search changes the two search classes and nothing else: the
    data, the identifiers, the texts and the [active] class of every node
    and card, their number and order, the tooltip and the pending frames
    are as before, for every text of the search box. *)
Theorem search_input_frame (toLowerCase : jsstring → jsstring)
    (value : jsstring) (p : Page) :
  let p' := (search_input toLowerCase value p).1 in
  ne_datum <$> nodeElements p' = ne_datum <$> nodeElements p ∧
  ne_active <$> nodeElements p' = ne_active <$> nodeElements p ∧
  card_data_id <$> cardElements p' = card_data_id <$> cardElements p ∧
  card_datum <$> cardElements p' = card_datum <$> cardElements p ∧
  card_name <$> cardElements p' = card_name <$> cardElements p ∧
  card_year <$> cardElements p' = card_year <$> cardElements p ∧
  card_active <$> cardElements p' = card_active <$> cardElements p ∧
  tooltip p' = tooltip p ∧ frames p' = frames p.
Proof.
  cbv zeta. unfold search_input.
  destruct (search_query_rest toLowerCase (trim (toLowerCase value)) p)
    as [Ht Hf].
  destruct (decide (trim (toLowerCase value) = [])) as [-> | Hq].
  - simpl. by rewrite !fmap_fmap_same by done.
  - rewrite search_query_nodes, search_query_cards by done.
    by rewrite !fmap_fmap_same by done.
Qed.

(** X23.  A text of the search box made of white space only, once
    lower-cased, is searched as the empty text: all marks are taken off and
    nothing is scrolled to. *)
Theorem search_input_blank (toLowerCase : jsstring → jsstring)
    (value : jsstring) (p : Page) :
  Forall (λ c, is_space c = true) (toLowerCase value) →
  search_input toLowerCase value p = (search_cleared p, None).
Proof.
  intros H. unfold search_input. by rewrite trim_all_space.
Qed.

Lemma search_input_blank_witness :
  Forall (λ c, is_space c = true) (ascii_toLowerCase [32; 9; 160]%N) ∧
  search_input ascii_toLowerCase [32; 9; 160]%N searched_page
    = (search_cleared searched_page, None).
Proof.
  assert (H : Forall (λ c, is_space c = true)
                (ascii_toLowerCase [32; 9; 160]%N)).
  { repeat constructor. }
  split; [exact H |].
  exact (search_input_blank ascii_toLowerCase _ searched_page H).
Defined.

(** X24.  The Escape key in the search box empties the box, takes every
    search mark off the page, scrolls nowhere and gives up the focus; any
    other key leaves box and page alone. *)
Theorem escape_clears_search (toLowerCase : jsstring → jsstring)
    (key : jsstring) (box : SearchBox) (p : Page) :
  toLowerCase [] = [] →
  search_keydown toLowerCase key box p =
    if bool_decide (key = js "Escape")
    then ({| box_value := []; box_focused := false |},
          (search_cleared p, None))
    else (box, (p, None)).
Proof.
  intros Hnil. unfold search_keydown, search_input. by rewrite Hnil.
Qed.

Lemma escape_clears_search_witness :
  ascii_toLowerCase [] = [] ∧
  search_keydown ascii_toLowerCase (js "Escape")
    {| box_value := js "ali"; box_focused := true |} searched_page
  = ({| box_value := []; box_focused := false |},
     (search_cleared searched_page, None)).
Proof.
  split; [reflexivity |].
  exact (escape_clears_search ascii_toLowerCase (js "Escape")
           {| box_value := js "ali"; box_focused := true |} searched_page
           eq_refl).
Defined.

(** The two loops of the handler do not mark alike: the query class
    highlights a card with a year label and leaves its node dimmed. *)
Example card_highlighted_node_dimmed :
  let p' := (search_input ascii_toLowerCase (js "class")
               (initial_page sample_nodes)).1 in
  card_search_match <$> cardElements p' = [true; true; true] ∧
  ne_search_match <$> nodeElements p' = [false; false; false].
Proof. split; reflexivity. Qed.

(** ** Drag handlers *)

Lemma drag_steps_pinned (steps : list DragStep) (st : Simulation * Position) :
  let st' := fold_left drag_step steps st in
  st'.1 = st.1 ∧
  pos_fx st'.2 = match last (pointer_moves steps) with
                 | Some ev => Some (ev_x ev)
                 | None => pos_fx st.2
                 end ∧
  pos_fy st'.2 = match last (pointer_moves steps) with
                 | Some ev => Some (ev_y ev)
                 | None => pos_fy st.2
                 end.
Proof.
  induction steps as [|s steps IH] using rev_ind; cbv zeta; [done|].
  rewrite fold_left_app. simpl.
  destruct IH as (Hsim & Hfx & Hfy).
  unfold pointer_moves. rewrite omap_app. fold (pointer_moves steps).
  destruct s as [ev | x y]; simpl.
  - rewrite last_snoc. unfold dragged.
    destruct (fold_left drag_step steps st) as [sim d]. done.
  - rewrite app_nil_r. done.
Qed.

(** X26.  A drag gesture pins the node and lets it go: from its start to
    its end the node is pinned where the pointer last was, or where the node
    stood while the pointer has not moved, whatever the simulation writes
    into its position meanwhile; after the end it is pinned nowhere.  With
    no other gesture in progress the start restarts the simulation with
    alpha target 0.3 and the end puts the alpha target back to 0. *)
Theorem drag_gesture_pins_and_releases (simulation : Simulation)
    (d : Position) (start finish : DragEvent) (steps : list DragStep) :
  let during := fold_left drag_step steps (dragstarted start (simulation, d)) in
  let after := dragended finish during in
  pos_fx during.2 = Some (default (pos_x d) (ev_x <$> last (pointer_moves steps))) ∧
  pos_fy during.2 = Some (default (pos_y d) (ev_y <$> last (pointer_moves steps))) ∧
  pos_fx after.2 = None ∧ pos_fy after.2 = None ∧
  pos_x after.2 = pos_x during.2 ∧ pos_y after.2 = pos_y during.2 ∧
  (ev_active start = 0 →
   during.1 = {| alphaTarget := 3 / 10; restarts := S (restarts simulation) |}) ∧
  (ev_active start ≠ 0 → during.1 = simulation) ∧
  (ev_active finish = 0 →
   after.1 = {| alphaTarget := 0; restarts := restarts during.1 |}) ∧
  (ev_active finish ≠ 0 → after.1 = during.1).
Proof.
  cbv zeta.
  destruct (drag_steps_pinned steps (dragstarted start (simulation, d)))
    as (Hsim & Hfx & Hfy).
  destruct (fold_left drag_step steps (dragstarted start (simulation, d)))
    as [sim' d'] eqn:E. simpl in *.
  rewrite Hfx, Hfy, Hsim.
  repeat split.
  - by destruct (last (pointer_moves steps)).
  - by destruct (last (pointer_moves steps)).
  - by intros ->.
  - intros H. by destruct (ev_active start).
  - by intros ->.
  - intros H. by destruct (ev_active finish).
Qed.

(** ** Normalizer *)

Lemma replace_space_runs_no_space (in_run : bool) (s : jsstring) :
  Forall (λ c, is_space c = false) (replace_space_runs in_run s).
Proof.
  revert in_run. induction s as [|c s IH]; intros in_run; simpl; [done|].
  destruct (is_space c) eqn:E.
  - destruct in_run; [apply IH|]. constructor; [done | apply IH].
  - constructor; [done | apply IH].
Qed.

Lemma replace_space_runs_length (in_run : bool) (s : jsstring) :
  length (replace_space_runs in_run s) ≤ length s.
Proof.
  revert in_run. induction s as [|c s IH]; intros in_run; simpl; [done|].
  destruct (is_space c), in_run; simpl;
    try (specialize (IH true); lia); specialize (IH false); lia.
Qed.

Lemma replace_space_runs_id (in_run : bool) (s : jsstring) :
  Forall (λ c, is_space c = false) s → replace_space_runs in_run s = s.
Proof.
  intros H. revert in_run.
  induction H as [|c s Hc _ IH]; intros in_run; simpl; [done|].
  by rewrite Hc, IH.
Qed.

(** X27.  The identifier of a node holds no white space; it is no longer
    than the lower-cased name, is the lower-cased name itself when that
    holds no white space, and is left as it is when it is put through the
    replacement again. *)
Theorem node_id_no_space (toLowerCase : jsstring → jsstring)
    (index : nat) (person : PersonRecord) :
  let id := node_id (make_node toLowerCase index person) in
  let lowered := toLowerCase (person_name person) in
  Forall (λ c, is_space c = false) id ∧
  length id ≤ length lowered ∧
  (Forall (λ c, is_space c = false) lowered → id = lowered) ∧
  replace_space_runs false id = id.
Proof.
  cbv zeta. simpl. split; [apply replace_space_runs_no_space|].
  split; [apply replace_space_runs_length|].
  split; [apply replace_space_runs_id|].
  apply replace_space_runs_id, replace_space_runs_no_space.
Qed.

(** ** Hover preview *)

(** X28.  While no detailed tooltip is up and no frame is pending, hovering
    a node shows the tooltip in the next frame and leaving the node hides
    it; but when the pointer leaves before that frame has run, the frame
    still shows the tooltip, which then stays up with no pointer on the
    node.  The hover never marks the tooltip detailed and never changes
    nodes or cards. *)
Theorem hover_preview (p : Page) (i : nat) :
  tt_detailed (tooltip p) = false →
  frames p = [] →
  tooltip (run p [MouseOver i; AnimationFrame])
    = {| tt_visible := true; tt_detailed := false |} ∧
  tooltip (run p [MouseOver i; AnimationFrame; MouseOut i])
    = {| tt_visible := false; tt_detailed := false |} ∧
  tooltip (run p [MouseOver i; MouseOut i; AnimationFrame])
    = {| tt_visible := true; tt_detailed := false |} ∧
  nodeElements (run p [MouseOver i; MouseOut i; AnimationFrame])
    = nodeElements p ∧
  cardElements (run p [MouseOver i; MouseOut i; AnimationFrame])
    = cardElements p.
Proof.
  destruct p as [ns cs [v dt] fs]. simpl. intros -> ->. done.
Qed.

Lemma hover_preview_witness :
  let p := initial_page sample_nodes in
  tt_detailed (tooltip p) = false ∧ frames p = [] ∧
  tooltip (run p [MouseOver 0; MouseOut 0; AnimationFrame])
    = {| tt_visible := true; tt_detailed := false |}.
Proof.
  cbv zeta. split; [reflexivity |]. split; [reflexivity |].
  exact (proj1 (proj2 (proj2 (hover_preview (initial_page sample_nodes) 0
                                eq_refl eq_refl)))).
Defined.

(** ** Cohort of a record *)

(** X29.  A record joins the cohort named unknown exactly when it has no
    graduation year, an empty one, or the year unknown itself; every other
    record joins the cohort named by its year as it is written. *)
Theorem unknown_cohort (toLowerCase : jsstring → jsstring)
    (index : nat) (person : PersonRecord) :
  let key := cohort_key (make_node toLowerCase index person) in
  (key = js "unknown" ↔
   person_graduationYear person = None ∨
   person_graduationYear person = Some [] ∨
   person_graduationYear person = Some (js "unknown")) ∧
  (∀ year, person_graduationYear person = Some year → year ≠ [] →
           key = year) ∧
  key ≠ [].
Proof.
  cbv zeta. unfold cohort_key, make_node. simpl.
  destruct (person_graduationYear person) as [[|c year]|]; simpl.
  - split; [|split]; [split; auto | by intros year [= <-] | done].
  - split; [|split].
    + split; [intros ->; auto | intros [H | [H | H]]; congruence].
    + by intros year' [= <-].
    + done.
  - split; [|split]; [split; auto | done | done].
Qed.
